(** * A shallow embedding of [url.py] (LRUCache, URLDatabase, URLShortener)

    Strings are Stdlib [string]s (lists of ASCII characters); the Python
    dicts of [URLDatabase] are [gmap string _]; the doubly linked list of the
    [LRUCache] together with its key index is represented by the list of its
    nodes [(key, value)], from the most recently used (right after the dummy
    head) to the least recently used (right before the dummy tail).
    Clock readings ([time.time()]) are explicit arguments. *)

From Stdlib Require Import Ascii ZArith Lia.
From Stdlib Require String.
From stdpp Require Import base gmap list strings relations.

Open Scope Z_scope.

(* ------------------------------------------------------------------ *)
(** ** Python truthiness and small string helpers *)

(** [if s:] on a Python string *)
Definition truthy_str (s : string) : bool :=
  match s with EmptyString => false | _ => true end.

(** [if x:] on an optional string ([None] or a string) *)
Definition truthy_opt_str (o : option string) : bool :=
  match o with Some s => truthy_str s | None => false end.

(** [if n:] on a Python int *)
Definition truthy_int (n : Z) : bool := negb (n =? 0).

(** [if x:] on an optional int *)
Definition truthy_opt_int (o : option Z) : bool :=
  match o with Some n => truthy_int n | None => false end.

Fixpoint str_existsb (f : ascii -> bool) (s : string) : bool :=
  match s with
  | EmptyString => false
  | String c r => f c || str_existsb f r
  end.

Fixpoint str_forallb (f : ascii -> bool) (s : string) : bool :=
  match s with
  | EmptyString => true
  | String c r => f c && str_forallb f r
  end.

(** [ch in s] *)
Definition char_in (ch : ascii) (s : string) : bool :=
  str_existsb (fun c => if ascii_dec c ch then true else false) s.

(** [s.split(sep)], [cur] is the segment being read *)
Fixpoint split_aux (sep : ascii) (s cur : string) : list string :=
  match s with
  | EmptyString => [cur]
  | String c r =>
      if ascii_dec c sep then cur :: split_aux sep r EmptyString
      else split_aux sep r (String.append cur (String c EmptyString))
  end.

Definition py_split (sep : ascii) (s : string) : list string :=
  split_aux sep s EmptyString.

Fixpoint repeat_char (n : nat) (c : ascii) : string :=
  match n with O => EmptyString | S k => String c (repeat_char k c) end.

(** [s.rjust(width, c)] *)
Definition rjust (s : string) (width : nat) (c : ascii) : string :=
  String.append (repeat_char (width - String.length s) c) s.

(* ------------------------------------------------------------------ *)
(** ** Validators and code generation of [URLShortener] *)

Definition charset : string :=
  "0123456789abcdefghijklmnopqrstuvwxyzABCDEFGHIJKLMNOPQRSTUVWXYZ".

(** [self.charset[i]] for [0 <= i < 62] *)
Definition charset_at (i : Z) : ascii :=
  match String.get (Z.to_nat i) charset with Some c => c | None => "0"%char end.

(** [_is_valid_url] *)
Definition is_valid_url (url : string) : bool :=
  if Nat.ltb 2048 (String.length url) then false
  else if negb (String.prefix "http://" url || String.prefix "https://" url)
  then false
  else
    let parts := py_split "/"%char url in
    if Nat.ltb (List.length parts) 3 then false
    else
      match nth_error parts 2 with
      | Some domain => char_in "."%char domain
      | None => false
      end.

(** [_is_valid_code] *)
Definition is_valid_code (code : string) : bool :=
  if negb (Nat.eqb (String.length code) 7) then false
  else str_forallb (fun c => char_in c charset) code.

(** The [while num:] loop of [_encode_base62]: [acc] is
    [''.join(reversed(result))]; [fuel] bounds the number of iterations. *)
Fixpoint encode_loop (fuel : nat) (num : Z) (acc : string) : string :=
  match fuel with
  | O => acc
  | S f =>
      if num =? 0 then acc
      else
        let base := Z.of_nat (String.length charset) in
        encode_loop f (num / base) (String (charset_at (num mod base)) acc)
  end.

(** [_encode_base62]; the loop runs at most [log2 num + 1] times since each
    iteration divides [num] by 62 (see [encode_loop_fuel] below). *)
Definition encode_base62 (num : Z) : string :=
  if num =? 0 then String (charset_at 0) EmptyString
  else encode_loop (S (Z.to_nat (Z.log2 num))) num EmptyString.


(* ------------------------------------------------------------------ *)
(** ** [LRUCache] *)

Record LRUCache := mkLRU {
  capacity : Z;
  (** the nodes between the dummy head and the dummy tail, as [(key, value)] *)
  nodes : list (string * string)
}.

Definition lru_init (cap : Z) : LRUCache := mkLRU cap [].

(** [self.cache[key].value] when [key in self.cache] *)
Fixpoint lru_find (key : string) (l : list (string * string)) : option string :=
  match l with
  | [] => None
  | (k, v) :: r => if String.eqb k key then Some v else lru_find key r
  end.

Definition key_in (key : string) (l : list (string * string)) : bool :=
  match lru_find key l with Some _ => true | None => false end.

(** [self._remove(self.cache[key])] *)
Definition remove_node (key : string) (l : list (string * string)) :=
  List.filter (fun e => negb (String.eqb (fst e) key)) l.

(** [LRUCache.get] *)
Definition lru_get (c : LRUCache) (key : string) : option string * LRUCache :=
  match lru_find key (nodes c) with
  | Some v => (Some v, mkLRU (capacity c) ((key, v) :: remove_node key (nodes c)))
  | None => (None, c)
  end.

(** [LRUCache.put]: unlink the old node if any, add the new node after the
    head, and if the dict holds more than [capacity] keys unlink the node
    before the tail and delete its key. *)
Definition lru_put (c : LRUCache) (key value : string) : LRUCache :=
  let l0 := if key_in key (nodes c) then remove_node key (nodes c) else nodes c in
  let l1 := (key, value) :: l0 in
  if Z.of_nat (length l1) >? capacity c
  then mkLRU (capacity c) (removelast l1)
  else mkLRU (capacity c) l1.

(* ------------------------------------------------------------------ *)
(** ** [URLDatabase] *)

Record Stat := mkStat {
  created_at : Z;
  expires_at : option Z;
  visit_count : Z
}.

Record URLDatabase := mkDB {
  url_to_code : gmap string string;
  code_to_url : gmap string string;
  stats : gmap string Stat;
  counter : Z
}.

Definition db_init : URLDatabase := mkDB ∅ ∅ ∅ 0.

(** [URLDatabase.store]; [now] is the reading of [_current_timestamp()] *)
Definition db_store (now : Z) (db : URLDatabase) (short_code long_url : string)
    (expiry : option Z) : URLDatabase :=
  mkDB (<[long_url := short_code]> (url_to_code db))
       (<[short_code := long_url]> (code_to_url db))
       (<[short_code := mkStat now expiry 0]> (stats db))
       (counter db).

(** [URLDatabase.increment_visits] *)
Definition increment_visits (db : URLDatabase) (short_code : string) : URLDatabase :=
  match stats db !! short_code with
  | Some st =>
      mkDB (url_to_code db) (code_to_url db)
           (<[short_code := mkStat (created_at st) (expires_at st) (visit_count st + 1)]>
              (stats db))
           (counter db)
  | None => db
  end.

(* ------------------------------------------------------------------ *)
(** ** [URLShortener] *)

Record URLShortener := mkShortener {
  db : URLDatabase;
  cache : LRUCache
}.

Definition shortener_init (cache_size : Z) : URLShortener :=
  mkShortener db_init (lru_init cache_size).

Definition set_db (s : URLShortener) (d : URLDatabase) : URLShortener :=
  mkShortener d (cache s).

Definition set_counter (d : URLDatabase) (n : Z) : URLDatabase :=
  mkDB (url_to_code d) (code_to_url d) (stats d) n.

(** one code candidate: [self._encode_base62(num).rjust(length, '0')] *)
Definition candidate (num : Z) : string := rjust (encode_base62 num) 7 "0"%char.

(** [_generate_code]: the [while True] loop, [fuel] iterations at most
    ([None] when the fuel runs out). *)
Fixpoint generate_code (fuel : nat) (d : URLDatabase) : option (string * URLDatabase) :=
  match fuel with
  | O => None
  | S f =>
      let d1 := set_counter d (counter d + 1) in
      let code := candidate (counter d1) in
      if negb (truthy_opt_str (code_to_url d1 !! code)) then Some (code, d1)
      else generate_code f d1
  end.

Definition msg_invalid_url : string := "Invalid URL format".
Definition msg_invalid_code : string := "Invalid custom code".
Definition msg_code_in_use : string := "Custom code already in use".
Definition msg_not_found : string := "URL not found".
Definition msg_expired : string := "URL has expired".

(** [create_short_url]: [t_exp] is the [time.time()] read for the expiry,
    [t_store] the one read by [URLDatabase.store]; [fuel] bounds the
    generation loop. *)
Definition create_short_url (fuel : nat) (t_exp t_store : Z) (s : URLShortener)
    (long_url : string) (custom_code : option string) (expiry_days : option Z)
    : option ((bool * string) * URLShortener) :=
  if negb (is_valid_url long_url) then Some ((false, msg_invalid_url), s) else
  let existing_code := url_to_code (db s) !! long_url in
  if truthy_opt_str existing_code
  then Some ((true, default EmptyString existing_code), s) else
  let generated :=
    match custom_code with
    | Some cc =>
        if truthy_str cc then
          if negb (is_valid_code cc) then inr (false, msg_invalid_code)
          else if truthy_opt_str (code_to_url (db s) !! cc)
          then inr (false, msg_code_in_use)
          else inl (Some (cc, db s))
        else inl (generate_code fuel (db s))
    | None => inl (generate_code fuel (db s))
    end in
  match generated with
  | inr err => Some (err, s)
  | inl None => None
  | inl (Some (short_code, d1)) =>
      let expiry :=
        match expiry_days with
        | Some days => if truthy_int days then Some (t_exp + days * 24 * 60 * 60) else None
        | None => None
        end in
      let d2 := db_store t_store d1 short_code long_url expiry in
      Some ((true, short_code), mkShortener d2 (lru_put (cache s) short_code long_url))
  end.

(** [get_long_url]: [now] is the reading of [_current_timestamp()]; [None]
    is the [TypeError] raised when a stored code has no statistics. *)
Definition get_long_url (now : Z) (s : URLShortener) (short_code : string)
    : option ((bool * string) * URLShortener) :=
  let (cached_url, c1) := lru_get (cache s) short_code in
  let s1 := mkShortener (db s) c1 in
  if truthy_opt_str cached_url
  then Some ((true, default EmptyString cached_url),
             mkShortener (increment_visits (db s) short_code) c1) else
  let long_url := code_to_url (db s) !! short_code in
  if negb (truthy_opt_str long_url) then Some ((false, msg_not_found), s1) else
  match stats (db s) !! short_code with
  | None => None
  | Some st =>
      if (match expires_at st with
          | Some e => truthy_int e && (e <? now)
          | None => false
          end)
      then Some ((false, msg_expired), s1)
      else
        let u := default EmptyString long_url in
        Some ((true, u),
              mkShortener (increment_visits (db s) short_code) (lru_put c1 short_code u))
  end.

(** [get_url_stats] *)
Definition get_url_stats (s : URLShortener) (short_code : string) : option Stat :=
  stats (db s) !! short_code.

(** One public operation that changes the state. *)
Inductive step : URLShortener -> URLShortener -> Prop :=
  | step_create fuel t_exp t_store s u cc ed r s' :
      create_short_url fuel t_exp t_store s u cc ed = Some (r, s') -> step s s'
  | step_resolve now s code r s' :
      get_long_url now s code = Some (r, s') -> step s s'.

Definition reachable (s : URLShortener) : Prop :=
  exists cache_size, rtc step (shortener_init cache_size) s.

(** A reference decoder for the codes of [_encode_base62] (it is not part of
    [url.py]): the digit value of a character is its index in [charset], and a
    string is read most significant digit first. *)
Fixpoint index_in (ch : ascii) (s : string) : Z :=
  match s with
  | EmptyString => 0
  | String c r => if ascii_dec c ch then 0 else 1 + index_in ch r
  end.

Definition digit_value (ch : ascii) : Z := index_in ch charset.

Fixpoint decode_aux (s : string) (acc : Z) : Z :=
  match s with
  | EmptyString => acc
  | String c r => decode_aux r (acc * 62 + digit_value c)
  end.

Definition decode_base62 (s : string) : Z := decode_aux s 0.

(** number of occurrences of [ch] in [s] (used to count the parts of
    [url.split('/')]) *)
Fixpoint count_char (ch : ascii) (s : string) : nat :=
  match s with
  | EmptyString => O
  | String c r => ((if ascii_dec c ch then 1 else 0) + count_char ch r)%nat
  end.

(** A sequence of calls on an [LRUCache]. *)
Inductive cache_op :=
  | CGet (key : string)
  | CPut (key value : string).

(** Runs the calls in order; also returns the keys they touch, oldest
    first: every [put], and every [get] that finds its key. *)
Fixpoint run_ops (c : LRUCache) (ops : list cache_op) : LRUCache * list string :=
  match ops with
  | [] => (c, [])
  | CGet k :: r =>
      let (res, c1) := lru_get c k in
      let (c2, ts) := run_ops c1 r in
      (c2, match res with Some _ => k :: ts | None => ts end)
  | CPut k v :: r =>
      let (c2, ts) := run_ops (lru_put c k v) r in (c2, k :: ts)
  end.

(** Recency order of touched keys: most recent first, each key once. *)
Definition drop_key (k : string) (l : list string) : list string :=
  List.filter (fun x => negb (String.eqb x k)) l.

Definition touch (D : list string) (k : string) : list string := k :: drop_key k D.

Definition recency (ts : list string) : list string := fold_left touch ts [].

Definition demo_ops : list cache_op :=
  [CPut "a" "x"; CPut "b" "y"; CGet "a"; CGet "d"; CPut "c" "z"].

(** A concrete run (as in [main()]), with a cache of size 1 and every clock
    reading equal to [t]. *)
Definition run_create (t : Z) (s : URLShortener) (u : string)
    (cc : option string) (ed : option Z) : URLShortener :=
  match create_short_url 100 t t s u cc ed with Some (_, s') => s' | None => s end.

(** A concrete call of [get_long_url] at clock reading [t], keeping only the
    new state. *)
Definition run_resolve (t : Z) (s : URLShortener) (code : string) : URLShortener :=
  match get_long_url t s code with Some (_, s') => s' | None => s end.

Definition demo0 : URLShortener := shortener_init 1.
Definition demo1 : URLShortener := run_create 0 demo0 "https://example.com/a" None (Some 1).
Definition demo2 : URLShortener := run_create 0 demo1 "https://example.com/b" None None.

(* ================================================================== *)
(** * Properties *)

(* ------------------------------------------------------------------ *)
(** ** Auxiliary facts on strings and the LRU node list *)

Lemma string_length_append (a b : string) :
  String.length (String.append a b) = (String.length a + String.length b)%nat.
Proof. induction a as [|ch a IH]; simpl; [done | by rewrite IH]. Qed.

Lemma repeat_char_length n ch : String.length (repeat_char n ch) = n.
Proof. induction n as [|n IH]; simpl; [done | by rewrite IH]. Qed.

Lemma rjust_length s w ch : String.length (rjust s w ch) = Nat.max w (String.length s).
Proof. unfold rjust. rewrite string_length_append, repeat_char_length. lia. Qed.

Lemma candidate_length n : (7 <= String.length (candidate n))%nat.
Proof. unfold candidate. rewrite rjust_length. lia. Qed.

Lemma candidate_truthy n : truthy_str (candidate n) = true.
Proof.
  pose proof (candidate_length n) as H.
  destruct (candidate n); simpl in *; [lia | done].
Qed.

Lemma valid_url_truthy u : is_valid_url u = true -> truthy_str u = true.
Proof. destruct u; [done | reflexivity]. Qed.

Lemma truthy_opt_str_false (o : option string) :
  (forall x, o = Some x -> truthy_str x = true) ->
  truthy_opt_str o = false -> o = None.
Proof. destruct o as [x|]; simpl; [|done]. intros H Hx. by rewrite H in Hx. Qed.

Lemma lru_find_In k v l : lru_find k l = Some v -> In (k, v) l.
Proof.
  induction l as [|[k' v'] l IH]; simpl; [done|].
  destruct (String.eqb_spec k' k) as [->|]; [intros [= ->]; by left|].
  intros H; right; auto.
Qed.

Lemma lru_find_None_notin k v l : lru_find k l = None -> ~ In (k, v) l.
Proof.
  induction l as [|[k' v'] l IH]; simpl; [intros _ []|].
  destruct (String.eqb_spec k' k) as [->|Hne]; [discriminate|].
  intros H [[= -> ->]|Hin]; [done | by apply (IH H)].
Qed.

Lemma In_remove_node k e l : In e (remove_node k l) -> In e l.
Proof. unfold remove_node. rewrite filter_In. tauto. Qed.

Lemma In_removelast {A} (e : A) l : In e (removelast l) -> In e l.
Proof.
  induction l as [|x l IH]; simpl; [done|].
  destruct l as [|y l]; [done|]. intros [->|H]; [by left | right; auto].
Qed.

Lemma lru_get_capacity c k : capacity (snd (lru_get c k)) = capacity c.
Proof. unfold lru_get. by destruct (lru_find k (nodes c)). Qed.

Lemma lru_put_capacity c k v : capacity (lru_put c k v) = capacity c.
Proof. unfold lru_put. by case_match. Qed.

(** every node after [put] is the new one or was there before *)
Lemma lru_put_In c k v e :
  In e (nodes (lru_put c k v)) -> e = (k, v) \/ In e (nodes c).
Proof.
  unfold lru_put. intros H.
  assert (H1 : In e ((k, v) :: (if key_in k (nodes c)
                                 then remove_node k (nodes c) else nodes c))).
  { case_match; [by apply In_removelast | done]. }
  destruct H1 as [<-|H1]; [by left|right].
  case_match; [by apply In_remove_node with k | done].
Qed.

Lemma lru_get_In c k e :
  In e (nodes (snd (lru_get c k))) -> In e (nodes c).
Proof.
  unfold lru_get. destruct (lru_find k (nodes c)) eqn:Hf; simpl; [|done].
  intros [<-|H]; [by apply lru_find_In | by apply In_remove_node with k].
Qed.

(* ------------------------------------------------------------------ *)
(** ** Code generation and the shape of [create_short_url] *)

Lemma generate_code_spec fuel d code d1 :
  generate_code fuel d = Some (code, d1) ->
  url_to_code d1 = url_to_code d /\ code_to_url d1 = code_to_url d /\
  stats d1 = stats d /\ counter d < counter d1 /\
  code = candidate (counter d1) /\ truthy_opt_str (code_to_url d !! code) = false.
Proof.
  revert d. induction fuel as [|f IH]; intros d; simpl; [done|].
  destruct (truthy_opt_str _) eqn:Ht; simpl.
  - intros H. destruct (IH _ H) as (H1 & H2 & H3 & H4 & H5 & H6). simpl in *.
    repeat split; try congruence; lia.
  - intros [= <- <-]. simpl. repeat split; auto; lia.
Qed.

(** A call of [create_short_url] either leaves the state as it is or
    stores a fresh pair [(code, long_url)] and writes it to the cache. *)
Lemma create_cases fuel t_exp t_store s u cc ed r s' :
  create_short_url fuel t_exp t_store s u cc ed = Some (r, s') ->
  (s' = s /\ (fst r = false \/ truthy_opt_str (url_to_code (db s) !! u) = true)) \/
  exists code d1 expiry,
    expiry = match ed with
             | Some days => if truthy_int days then Some (t_exp + days * 24 * 60 * 60)
                            else None
             | None => None
             end /\
    is_valid_url u = true /\
    truthy_opt_str (url_to_code (db s) !! u) = false /\
    truthy_str code = true /\
    truthy_opt_str (code_to_url (db s) !! code) = false /\
    url_to_code d1 = url_to_code (db s) /\ code_to_url d1 = code_to_url (db s) /\
    stats d1 = stats (db s) /\ counter (db s) <= counter d1 /\
    r = (true, code) /\
    s' = mkShortener (db_store t_store d1 code u expiry) (lru_put (cache s) code u).
Proof.
  unfold create_short_url.
  destruct (is_valid_url u) eqn:Hv; simpl; [|intros [= <- <-]; left; by split; [|left]].
  destruct (truthy_opt_str (url_to_code (db s) !! u)) eqn:He;
    [intros [= _ <-]; left; by split; [|right]|].
  intros H.
  destruct cc as [cc|].
  - destruct (truthy_str cc) eqn:Hc.
    + destruct (is_valid_code cc); simpl in H; [|injection H as <- <-; left; by split; [|left]].
      destruct (truthy_opt_str (code_to_url (db s) !! cc)) eqn:Hu;
        [injection H as <- <-; left; by split; [|left]|].
      injection H as <- <-. right. eexists _, _, _. split; [reflexivity|]. repeat split; eauto; lia.
    + destruct (generate_code fuel (db s)) as [[code d1]|] eqn:Hg; [|done].
      destruct (generate_code_spec _ _ _ _ Hg) as (H1 & H2 & H3 & H4 & H5 & H6).
      injection H as <- <-. right. exists code, d1; eexists. split; [reflexivity|].
      repeat split; eauto; try lia. rewrite H5. apply candidate_truthy.
  - destruct (generate_code fuel (db s)) as [[code d1]|] eqn:Hg; [|done].
    destruct (generate_code_spec _ _ _ _ Hg) as (H1 & H2 & H3 & H4 & H5 & H6).
    injection H as <- <-. right. exists code, d1; eexists. split; [reflexivity|].
    repeat split; eauto; try lia. rewrite H5. apply candidate_truthy.
Qed.

(* ------------------------------------------------------------------ *)
(** ** The state invariant *)

Definition store_inv (d : URLDatabase) : Prop :=
  (forall c u, code_to_url d !! c = Some u <-> url_to_code d !! u = Some c) /\
  (forall u c, url_to_code d !! u = Some c ->
     truthy_str c = true /\ is_valid_url u = true) /\
  (forall c, is_Some (code_to_url d !! c) <-> is_Some (stats d !! c)).

Definition cache_coherent (s : URLShortener) : Prop :=
  forall k v, In (k, v) (nodes (cache s)) -> code_to_url (db s) !! k = Some v.

Definition inv (s : URLShortener) : Prop := store_inv (db s) /\ cache_coherent s.

Lemma store_inv_url_truthy d c u :
  store_inv d -> code_to_url d !! c = Some u -> truthy_str u = true.
Proof.
  intros (Hi & Hv & _) H. apply Hi, Hv in H as [_ H]. by apply valid_url_truthy.
Qed.

Lemma store_inv_store d t c u e :
  store_inv d -> code_to_url d !! c = None -> url_to_code d !! u = None ->
  truthy_str c = true -> is_valid_url u = true ->
  store_inv (db_store t d c u e).
Proof.
  intros (Hi & Hv & Hs) Hc Hu Htc Hvu. unfold db_store; split; [|split]; simpl.
  - intros c' u'. rewrite !lookup_insert_Some. split.
    + intros [[<- <-]|[Hne H]]; [by left|right].
      split; [|by apply Hi]. intros <-. apply Hi in H. congruence.
    + intros [[<- <-]|[Hne H]]; [by left|right].
      split; [|by apply Hi]. intros <-. apply Hi in H. congruence.
  - intros u' c'. rewrite lookup_insert_Some.
    intros [[<- <-]|[_ H]]; [done | by apply Hv].
  - intros c'. rewrite !lookup_insert_is_Some. specialize (Hs c'). tauto.
Qed.

Lemma store_inv_increment d c :
  store_inv d -> store_inv (increment_visits d c).
Proof.
  unfold increment_visits. destruct (stats d !! c) eqn:Hst; [|done].
  intros (Hi & Hv & Hs). split; [|split]; simpl; auto.
  intros c'. rewrite lookup_insert_is_Some, Hs.
  destruct (decide (c = c')) as [<-|]; [rewrite Hst|]; naive_solver.
Qed.

Lemma increment_visits_maps d c :
  url_to_code (increment_visits d c) = url_to_code d /\
  code_to_url (increment_visits d c) = code_to_url d /\
  counter (increment_visits d c) = counter d.
Proof. unfold increment_visits. by destruct (stats d !! c). Qed.

Lemma store_inv_same_maps d d' :
  url_to_code d' = url_to_code d -> code_to_url d' = code_to_url d ->
  stats d' = stats d -> store_inv d -> store_inv d'.
Proof. intros H1 H2 H3. unfold store_inv. by rewrite H1, H2, H3. Qed.

Lemma inv_create fuel t_exp t_store s u cc ed r s' :
  inv s -> create_short_url fuel t_exp t_store s u cc ed = Some (r, s') -> inv s'.
Proof.
  intros [Hd Hc] H.
  destruct (create_cases _ _ _ _ _ _ _ _ _ H)
    as [[-> _]|(code & d1 & expiry & _ & Hv & Hu & Htc & Hfc & H1 & H2 & H3 & _ & _ & ->)];
    [by split|].
  assert (Hcode : code_to_url (db s) !! code = None).
  { apply truthy_opt_str_false; [|done].
    intros x Hx. by apply (store_inv_url_truthy (db s) code). }
  assert (Hurl : url_to_code (db s) !! u = None).
  { apply truthy_opt_str_false; [|done].
    intros x Hx. destruct Hd as (_ & Hval & _). by apply Hval in Hx as [? _]. }
  split.
  - apply store_inv_store; [|congruence|congruence|done|done].
    by apply (store_inv_same_maps (db s)).
  - intros k v Hin. simpl. rewrite H2.
    destruct (lru_put_In _ _ _ _ Hin) as [[= -> ->]|Hold].
    + by rewrite lookup_insert_eq.
    + pose proof (Hc _ _ Hold) as Hk. rewrite lookup_insert_ne; [done|].
      intros <-. congruence.
Qed.

Lemma inv_resolve now s code r s' :
  inv s -> get_long_url now s code = Some (r, s') -> inv s'.
Proof.
  intros [Hd Hc]. unfold get_long_url.
  destruct (lru_get (cache s) code) as [cached c1] eqn:Hg.
  assert (Hc1 : forall k v, In (k, v) (nodes c1) -> code_to_url (db s) !! k = Some v).
  { intros k v Hin. apply Hc. apply (lru_get_In _ code). by rewrite Hg. }
  destruct (increment_visits_maps (db s) code) as (E1 & E2 & _).
  destruct (truthy_opt_str cached).
  { intros [= _ <-]. split; [by apply store_inv_increment|].
    intros k v Hin. simpl. rewrite E2. by apply Hc1. }
  destruct (code_to_url (db s) !! code) as [u|] eqn:Hu; simpl;
    [|intros [= _ <-]; split; [done|exact Hc1]].
  destruct (truthy_str u); simpl; [|intros [= _ <-]; split; [done|exact Hc1]].
  destruct (stats (db s) !! code) as [st|]; [|done].
  case_match; [intros [= _ <-]; split; [done|exact Hc1]|].
  intros [= _ <-]. split; [by apply store_inv_increment|].
  intros k v Hin. simpl. rewrite E2.
  destruct (lru_put_In _ _ _ _ Hin) as [[= -> ->]|Hold]; [done|by apply Hc1].
Qed.

Lemma inv_step s s' : step s s' -> inv s -> inv s'.
Proof.
  intros [fuel t1 t2 ? u cc ed r ? H|now ? code r ? H] Hi;
    [by eapply inv_create | by eapply inv_resolve].
Qed.

Lemma inv_init n : inv (shortener_init n).
Proof.
  split; [split; [|split]|]; simpl.
  - intros c u. rewrite !lookup_empty. split; discriminate.
  - intros u c. rewrite lookup_empty. discriminate.
  - intros c. rewrite !lookup_empty. done.
  - intros k v [].
Qed.

Lemma inv_rtc s s' : rtc step s s' -> inv s -> inv s'.
Proof. induction 1; eauto using inv_step. Qed.

Lemma reachable_inv s : reachable s -> inv s.
Proof. intros [n H]. apply (inv_rtc _ _ H), inv_init. Qed.

Lemma demo1_reachable : reachable demo1.
Proof.
  exists 1. eapply rtc_l; [|apply rtc_refl].
  apply (step_create 100 0 0 demo0 "https://example.com/a" None (Some 1) (true, "0000001")).
  vm_compute. reflexivity.
Qed.

Lemma demo2_reachable : reachable demo2.
Proof.
  destruct demo1_reachable as [n H]. exists n. eapply rtc_r; [exact H|].
  apply (step_create 100 0 0 demo1 "https://example.com/b" None None (true, "0000002")).
  vm_compute. reflexivity.
Qed.

Lemma valid_code_truthy c : is_valid_code c = true -> truthy_str c = true.
Proof. destruct c; [discriminate | reflexivity]. Qed.

Lemma lru_get_miss (c : LRUCache) (key : string) :
  key_in key (nodes c) = false -> lru_get c key = (None, c).
Proof.
  unfold key_in, lru_get. destruct (lru_find key (nodes c)); [discriminate|done].
Qed.

(** The code, creation time and expiry of a stored record never change. *)
Lemma step_keeps_record s s' c u st :
  inv s -> step s s' ->
  code_to_url (db s) !! c = Some u -> stats (db s) !! c = Some st ->
  code_to_url (db s') !! c = Some u /\
  exists st', stats (db s') !! c = Some st' /\ created_at st' = created_at st /\
              expires_at st' = expires_at st.
Proof.
  intros [Hd _] Hstep Hc Hs.
  assert (Hinc : forall code, code_to_url (increment_visits (db s) code) !! c = Some u /\
            exists st', stats (increment_visits (db s) code) !! c = Some st' /\
              created_at st' = created_at st /\ expires_at st' = expires_at st).
  { intros code. unfold increment_visits.
    destruct (stats (db s) !! code) as [st0|] eqn:Hs0; simpl; [|eauto].
    split; [done|]. rewrite lookup_insert.
    case_decide as Heq; [subst code|eauto].
    rewrite Hs in Hs0. injection Hs0 as <-. eauto. }
  destruct Hstep as [fuel t1 t2 ? u' cc ed r ? H|now ? code r ? H].
  - destruct (create_cases _ _ _ _ _ _ _ _ _ H)
      as [[-> _]|(code & d1 & expiry & _ & _ & _ & _ & Hfc & H1 & H2 & H3 & _ & _ & ->)];
      [eauto|].
    assert (Hne : code <> c).
    { intros ->. rewrite Hc in Hfc. simpl in Hfc.
      rewrite (store_inv_url_truthy _ _ _ Hd Hc) in Hfc. discriminate. }
    simpl. rewrite H2, H3, !lookup_insert_ne by done. eauto.
  - revert H. unfold get_long_url.
    destruct (lru_get (cache s) code) as [cached c1].
    destruct (truthy_opt_str cached); [intros [= _ <-]; apply Hinc|].
    destruct (truthy_opt_str (code_to_url (db s) !! code)); simpl;
      [|intros [= _ <-]; eauto].
    destruct (stats (db s) !! code); [|done].
    case_match; intros [= _ <-]; [eauto|apply Hinc].
Qed.

Lemma rtc_keeps_record s s' c u st :
  inv s -> rtc step s s' ->
  code_to_url (db s) !! c = Some u -> stats (db s) !! c = Some st ->
  code_to_url (db s') !! c = Some u /\
  exists st', stats (db s') !! c = Some st' /\ created_at st' = created_at st /\
              expires_at st' = expires_at st.
Proof.
  intros Hi Hr. revert st Hi. induction Hr as [s|s s1 s' Hs Hr IH]; intros st Hi Hc Hst.
  - eauto.
  - destruct (step_keeps_record _ _ _ _ _ Hi Hs Hc Hst) as (Hc1 & st1 & Hst1 & E1 & E2).
    destruct (IH st1 (inv_step _ _ Hs Hi) Hc1 Hst1) as (Hc' & st' & Hst' & E1' & E2').
    split; [done|]. exists st'. split; [done|]. split; congruence.
Qed.

Lemma reachable_rtc s s' : reachable s -> rtc step s s' -> reachable s'.
Proof. intros [n H] H'. exists n. by eapply rtc_trans. Qed.

(* ------------------------------------------------------------------ *)
(** ** Base-62 encoding *)

Lemma charset_length : Z.of_nat (String.length charset) = 62.
Proof. reflexivity. Qed.

(** [S (log2 num)] iterations are enough: after them [num] is [0]. *)
Lemma encode_loop_fuel f num acc :
  0 <= num < 2 ^ Z.of_nat f -> encode_loop (S f) num acc = encode_loop f num acc.
Proof.
  revert num acc. induction f as [|f IH]; intros num acc Hn.
  - simpl in Hn. assert (num = 0) as -> by lia. reflexivity.
  - change (encode_loop (S (S f)) num acc) with
      (if num =? 0 then acc
       else encode_loop (S f) (num / Z.of_nat (String.length charset))
              (String (charset_at (num mod Z.of_nat (String.length charset))) acc)).
    change (encode_loop (S f) num acc) with
      (if num =? 0 then acc
       else encode_loop f (num / Z.of_nat (String.length charset))
              (String (charset_at (num mod Z.of_nat (String.length charset))) acc)).
    rewrite charset_length. destruct (Z.eqb_spec num 0); [done|].
    apply IH. split; [apply Z.div_pos; lia|].
    rewrite Nat2Z.inj_succ, Z.pow_succ_r in Hn by lia.
    apply Z.div_lt_upper_bound; lia.
Qed.

Lemma encode_base62_fuel num :
  0 < num ->
  encode_base62 num = encode_loop (S (S (Z.to_nat (Z.log2 num)))) num EmptyString.
Proof.
  intros Hn. unfold encode_base62.
  destruct (Z.eqb_spec num 0) as [|_]; [lia|].
  symmetry. apply encode_loop_fuel. split; [lia|].
  rewrite Nat2Z.inj_succ, Z2Nat.id by (apply Z.log2_nonneg). apply Z.log2_spec. lia.
Qed.

Lemma get_char_in n s ch : String.get n s = Some ch -> char_in ch s = true.
Proof.
  revert n. induction s as [|c s IH]; intros n; simpl; [discriminate|].
  destruct n as [|n].
  - intros [= ->]. unfold char_in. simpl. by destruct (ascii_dec ch ch).
  - intros H. unfold char_in in *. simpl. rewrite (IH n H). apply orb_true_r.
Qed.

Lemma charset_at_in i : char_in (charset_at i) charset = true.
Proof.
  unfold charset_at. destruct (String.get (Z.to_nat i) charset) eqn:H.
  - by apply get_char_in with (Z.to_nat i).
  - reflexivity.
Qed.

Lemma encode_loop_chars f num acc :
  str_forallb (fun ch => char_in ch charset) acc = true ->
  str_forallb (fun ch => char_in ch charset) (encode_loop f num acc) = true.
Proof.
  revert num acc. induction f as [|f IH]; intros num acc H; simpl; [done|].
  destruct (num =? 0); [done|]. apply IH. simpl. by rewrite charset_at_in.
Qed.

Lemma encode_base62_chars num :
  str_forallb (fun ch => char_in ch charset) (encode_base62 num) = true.
Proof.
  unfold encode_base62. destruct (num =? 0); [reflexivity|].
  by apply encode_loop_chars.
Qed.

Lemma encode_loop_length f num acc (k : nat) :
  0 <= num < 62 ^ Z.of_nat k ->
  (String.length (encode_loop f num acc) <= k + String.length acc)%nat.
Proof.
  revert num acc k. induction f as [|f IH]; intros num acc k Hn; simpl; [lia|].
  destruct (Z.eqb_spec num 0); [lia|].
  change (Z.of_nat 62) with 62. destruct k as [|k].
  { simpl in Hn. lia. }
  rewrite Nat2Z.inj_succ, Z.pow_succ_r in Hn by lia.
  assert (Hk : 0 <= num / 62 < 62 ^ Z.of_nat k).
  { split; [apply Z.div_pos; lia|]. apply Z.div_lt_upper_bound; lia. }
  pose proof (IH _ (String (charset_at (num mod 62)) acc) _ Hk) as H. simpl in H. lia.
Qed.

Lemma encode_base62_length_le num :
  0 < num < 62 ^ 7 -> (String.length (encode_base62 num) <= 7)%nat.
Proof.
  intros Hn. unfold encode_base62.
  destruct (Z.eqb_spec num 0); [lia|].
  pose proof (encode_loop_length (S (Z.to_nat (Z.log2 num))) num EmptyString 7) as H.
  simpl in H. apply H. lia.
Qed.

Lemma rjust_chars s w :
  str_forallb (fun ch => char_in ch charset) s = true ->
  str_forallb (fun ch => char_in ch charset) (rjust s w "0"%char) = true.
Proof.
  intros Hs. unfold rjust. generalize (w - String.length s)%nat as n.
  induction n as [|n IH]; simpl; [done|]. by rewrite IH.
Qed.

Lemma digit_value_charset_at i : 0 <= i < 62 -> digit_value (charset_at i) = i.
Proof.
  intros Hi.
  assert (Hall : List.forallb (fun k => Z.eqb (digit_value (charset_at k)) k) (seqZ 0 62) = true)
    by reflexivity.
  rewrite List.forallb_forall in Hall.
  apply Z.eqb_eq, Hall. apply list_elem_of_In, elem_of_seqZ. lia.
Qed.

Lemma string_append_assoc (a b c : string) :
  String.append (String.append a b) c = String.append a (String.append b c).
Proof.
  induction a as [|ch a IH]; [reflexivity|].
  change (String ch (String.append (String.append a b) c)
          = String ch (String.append a (String.append b c))). by rewrite IH.
Qed.

Lemma string_append_empty (a : string) : String.append a EmptyString = a.
Proof.
  induction a as [|ch a IH]; [reflexivity|].
  change (String ch (String.append a EmptyString) = String ch a). by rewrite IH.
Qed.

Lemma decode_aux_append s1 s2 a :
  decode_aux (String.append s1 s2) a = decode_aux s2 (decode_aux s1 a).
Proof.
  revert a. induction s1 as [|ch s1 IH]; intros a; [reflexivity|].
  change (decode_aux (String.append s1 s2) (a * 62 + digit_value ch)
          = decode_aux s2 (decode_aux s1 (a * 62 + digit_value ch))). apply IH.
Qed.

Lemma encode_loop_decode f num acc :
  0 <= num < 2 ^ Z.of_nat f ->
  exists p, encode_loop f num acc = String.append p acc /\ decode_aux p 0 = num.
Proof.
  revert num acc. induction f as [|f IH]; intros num acc Hn.
  - simpl in Hn. assert (num = 0) as -> by lia. by exists EmptyString.
  - change (encode_loop (S f) num acc) with
      (if num =? 0 then acc
       else encode_loop f (num / Z.of_nat (String.length charset))
              (String (charset_at (num mod Z.of_nat (String.length charset))) acc)).
    rewrite charset_length. destruct (Z.eqb_spec num 0) as [->|Hne]; [by exists EmptyString|].
    assert (Hq : 0 <= num / 62 < 2 ^ Z.of_nat f).
    { rewrite Nat2Z.inj_succ, Z.pow_succ_r in Hn by lia.
      split; [apply Z.div_pos; lia|]. apply Z.div_lt_upper_bound; lia. }
    destruct (IH _ (String (charset_at (num mod 62)) acc) Hq) as (p & Hp & Hd).
    exists (String.append p (String (charset_at (num mod 62)) EmptyString)).
    split; [by rewrite Hp, string_append_assoc|].
    rewrite decode_aux_append, Hd. simpl.
    rewrite digit_value_charset_at by (apply Z.mod_pos_bound; lia).
    pose proof (Z.div_mod num 62). lia.
Qed.

Lemma decode_encode_base62 num : 0 <= num -> decode_base62 (encode_base62 num) = num.
Proof.
  intros Hn. unfold decode_base62, encode_base62.
  destruct (Z.eqb_spec num 0) as [->|Hne]; [reflexivity|].
  destruct (encode_loop_decode (S (Z.to_nat (Z.log2 num))) num EmptyString) as (p & Hp & Hd).
  - split; [lia|]. rewrite Nat2Z.inj_succ, Z2Nat.id by (apply Z.log2_nonneg).
    apply Z.log2_spec. lia.
  - rewrite Hp. by rewrite string_append_empty.
Qed.

(** a character of [s] has an index below the length of [s] *)
Lemma index_in_lt ch s :
  char_in ch s = true -> 0 <= index_in ch s < Z.of_nat (String.length s).
Proof.
  unfold char_in. induction s as [|c r IH]; simpl; [discriminate|].
  destruct (ascii_dec c ch); simpl; intros H; [lia|]. specialize (IH H). lia.
Qed.

(** a string over [charset] of length [k] reads as a number below [62^k] *)
Lemma decode_aux_bound s acc :
  0 <= acc -> str_forallb (fun ch => char_in ch charset) s = true ->
  0 <= decode_aux s acc < (acc + 1) * 62 ^ Z.of_nat (String.length s).
Proof.
  revert acc. induction s as [|c r IH]; intros acc Hacc Hs; simpl; [lia|].
  apply andb_prop in Hs as [Hc Hr].
  pose proof (index_in_lt c charset Hc) as Hd. rewrite charset_length in Hd.
  unfold digit_value. specialize (IH (acc * 62 + index_in c charset) ltac:(lia) Hr).
  rewrite Nat2Z.inj_succ, Z.pow_succ_r by lia.
  pose proof (Z.pow_pos_nonneg 62 (Z.of_nat (String.length r)) ltac:(lia) ltac:(lia)).
  nia.
Qed.

Lemma encode_base62_length_gt num :
  62 ^ 7 <= num -> (7 < String.length (encode_base62 num))%nat.
Proof.
  intros Hn. pose proof (decode_encode_base62 num ltac:(lia)) as Hd.
  pose proof (decode_aux_bound (encode_base62 num) 0 ltac:(lia) (encode_base62_chars num)) as Hb.
  unfold decode_base62 in Hd. rewrite Hd in Hb.
  destruct (Nat.lt_ge_cases 7 (String.length (encode_base62 num))) as [|Hle]; [done|].
  exfalso. assert (62 ^ Z.of_nat (String.length (encode_base62 num)) <= 62 ^ 7).
  { apply Z.pow_le_mono_r; lia. }
  lia.
Qed.

Lemma step_counter_mono s s' : step s s' -> counter (db s) <= counter (db s').
Proof.
  intros Hs. destruct Hs as [fuel t1 t2 ? u cc ed r ? H|now ? code r ? H].
  - destruct (create_cases _ _ _ _ _ _ _ _ _ H)
      as [[-> _]|(code & d1 & expiry & _ & _ & _ & _ & _ & _ & _ & _ & Hc & _ & ->)];
      simpl; lia.
  - revert H. unfold get_long_url.
    destruct (increment_visits_maps (db s) code) as (_ & _ & E).
    destruct (lru_get (cache s) code) as [cached c1].
    destruct (truthy_opt_str cached); [intros [= _ <-]; simpl; lia|].
    destruct (truthy_opt_str (code_to_url (db s) !! code)); simpl;
      [|intros [= _ <-]; simpl; lia].
    destruct (stats (db s) !! code); [|done].
    case_match; intros [= _ <-]; simpl; lia.
Qed.

(* ------------------------------------------------------------------ *)
(** ** LRU order *)

Lemma map_fst_remove_node k (l : list (string * string)) :
  map fst (remove_node k l) = drop_key k (map fst l).
Proof.
  induction l as [|[k' v] l IH]; simpl; [done|].
  destruct (String.eqb k' k); simpl; by rewrite IH.
Qed.

Lemma key_in_In k (l : list (string * string)) : key_in k l = true <-> In k (map fst l).
Proof.
  unfold key_in. induction l as [|[k' v] l IH]; simpl; [split; [discriminate|done]|].
  destruct (String.eqb_spec k' k) as [->|Hne]; [split; auto|].
  rewrite <- IH. split; [auto|]. intros [->|H]; [done|exact H].
Qed.

Lemma remove_node_notin k (l : list (string * string)) :
  key_in k l = false -> remove_node k l = l.
Proof.
  intros H. assert (Hn : ~ In k (map fst l)) by (rewrite <- key_in_In; congruence).
  clear H. induction l as [|[k' v] l IH]; simpl in *; [done|].
  destruct (String.eqb_spec k' k) as [->|]; [tauto|]. simpl. f_equal. tauto.
Qed.

Lemma drop_key_notin k l : ~ In k l -> drop_key k l = l.
Proof.
  induction l as [|x l IH]; simpl; [done|]. intros Hn.
  destruct (String.eqb_spec x k) as [->|]; [tauto|]. simpl. f_equal. tauto.
Qed.

Lemma drop_key_In k x l : In x (drop_key k l) <-> In x l /\ x <> k.
Proof.
  unfold drop_key. rewrite filter_In.
  destruct (String.eqb_spec x k); simpl; intuition congruence.
Qed.

Lemma drop_key_NoDup k l : List.NoDup l -> List.NoDup (drop_key k l).
Proof. intros H. unfold drop_key; by apply List.NoDup_filter. Qed.

Lemma touch_NoDup D k : List.NoDup D -> List.NoDup (touch D k).
Proof.
  intros H. constructor; [|by apply drop_key_NoDup].
  rewrite drop_key_In. tauto.
Qed.

Lemma drop_key_length_NoDup k l :
  List.NoDup l -> (length l <= S (length (drop_key k l)))%nat.
Proof.
  induction 1 as [|x l Hx Hl IH]; simpl; [lia|].
  destruct (String.eqb_spec x k) as [->|]; simpl; [|lia].
  rewrite drop_key_notin by done. lia.
Qed.

Lemma drop_key_length_In k l : In k l -> (length (drop_key k l) < length l)%nat.
Proof.
  induction l as [|x l IH]; simpl; [done|]. intros Hk.
  pose proof (List.filter_length_le (fun y => negb (String.eqb y k)) l).
  destruct (String.eqb_spec x k) as [->|]; simpl; [unfold drop_key in *; lia|].
  destruct Hk as [->|Hk]; [done|]. specialize (IH Hk). lia.
Qed.

Lemma drop_key_app k l1 l2 : drop_key k (l1 ++ l2) = drop_key k l1 ++ drop_key k l2.
Proof. apply List.filter_app. Qed.

(** dropping [k] commutes with keeping the first [S n] keys *)
Lemma take_drop_key_take k n D :
  List.NoDup D -> take n (drop_key k (take (S n) D)) = take n (drop_key k D).
Proof.
  intros Hnd.
  destruct (decide (S n <= length D)%nat) as [Hle|Hgt].
  - rewrite <- (take_drop (S n) D) at 2. rewrite drop_key_app.
    rewrite take_app_le; [done|].
    pose proof (drop_key_length_NoDup k (take (S n) D)) as H.
    rewrite length_take_le in H by done.
    assert (List.NoDup (take (S n) D)).
    { apply (List.NoDup_app_remove_r _ (drop (S n) D)). by rewrite take_drop. }
    specialize (H H0). lia.
  - rewrite (take_ge D (S n)) by lia. done.
Qed.

Lemma map_fst_removelast (l : list (string * string)) :
  map fst (removelast l) = removelast (map fst l).
Proof.
  induction l as [|x l IH]; simpl; [done|].
  destruct l as [|y l]; simpl in *; [done|]. by rewrite IH.
Qed.

(** [put] and a [get] hit both put [k] in front of the other keys and keep
    the first [n] of them. *)
Lemma lru_put_keys c k v n D :
  capacity c = Z.of_nat (S n) -> map fst (nodes c) = take (S n) D -> List.NoDup D ->
  map fst (nodes (lru_put c k v)) = take (S n) (touch D k).
Proof.
  intros Hcap HK Hnd.
  assert (HL : (if key_in k (nodes c) then remove_node k (nodes c) else nodes c)
               = remove_node k (nodes c)).
  { destruct (key_in k (nodes c)) eqn:Hk; [done|]. by rewrite remove_node_notin. }
  assert (Hlen : (length (remove_node k (nodes c)) <= S n)%nat).
  { rewrite <- length_map with (f := fst), map_fst_remove_node, HK.
    unfold drop_key. pose proof (List.filter_length_le (fun x => negb (String.eqb x k)) (take (S n) D)).
    rewrite length_take in *. lia. }
  unfold lru_put. rewrite HL, Hcap. unfold touch.
  change (take (S n) (k :: drop_key k D)) with (k :: take n (drop_key k D)).
  rewrite <- (take_drop_key_take k n D Hnd), <- HK, <- map_fst_remove_node.
  set (R := remove_node k (nodes c)) in *. cbn [length].
  destruct (Z.gtb_spec (Z.of_nat (S (length R))) (Z.of_nat (S n))) as [Hgt|Hle];
    cbn [nodes].
  - assert (Heq : length R = S n) by lia.
    destruct R as [|x R'] eqn:E; [simpl in Heq; lia|].
    change (removelast ((k, v) :: x :: R')) with ((k, v) :: removelast (x :: R')).
    rewrite map_cons. f_equal.
    rewrite removelast_firstn_len, Heq. simpl pred. by rewrite firstn_map.
  - rewrite map_cons. f_equal. rewrite take_ge; [done|]. rewrite length_map. lia.
Qed.
Lemma lru_hit_keys c k v n D :
  map fst (nodes c) = take (S n) D -> List.NoDup D -> lru_find k (nodes c) = Some v ->
  map fst ((k, v) :: remove_node k (nodes c)) = take (S n) (touch D k).
Proof.
  intros HK Hnd Hf. unfold touch.
  change (take (S n) (k :: drop_key k D)) with (k :: take n (drop_key k D)).
  rewrite map_cons, map_fst_remove_node. f_equal.
  rewrite <- (take_drop_key_take k n D Hnd), <- HK.
  rewrite take_ge; [done|].
  assert (Hin : In k (map fst (nodes c))).
  { apply (in_map fst _ (k, v)). by apply lru_find_In. }
  pose proof (drop_key_length_In k _ Hin) as H.
  rewrite HK, length_take in H. rewrite HK. lia.
Qed.

Lemma run_ops_keys ops : forall c n D,
  capacity c = Z.of_nat (S n) -> map fst (nodes c) = take (S n) D -> List.NoDup D ->
  capacity (fst (run_ops c ops)) = Z.of_nat (S n) /\
  map fst (nodes (fst (run_ops c ops))) = take (S n) (fold_left touch (snd (run_ops c ops)) D) /\
  List.NoDup (fold_left touch (snd (run_ops c ops)) D).
Proof.
  induction ops as [|[k|k v] r IH]; intros c n D Hcap HK Hnd; [done| |].
  - cbn [run_ops]. unfold lru_get.
    destruct (lru_find k (nodes c)) as [v|] eqn:Hf.
    + pose proof (IH (mkLRU (capacity c) ((k, v) :: remove_node k (nodes c))) n
                     (touch D k) Hcap (lru_hit_keys c k v n D HK Hnd Hf)
                     (touch_NoDup D k Hnd)) as IH'.
      destruct (run_ops _ r) as [c2 ts]. exact IH'.
    + pose proof (IH c n D Hcap HK Hnd) as IH'.
      destruct (run_ops c r) as [c2 ts]. exact IH'.
  - cbn [run_ops].
    pose proof (IH (lru_put c k v) n (touch D k)
                   ltac:(by rewrite lru_put_capacity) (lru_put_keys c k v n D Hcap HK Hnd)
                   (touch_NoDup D k Hnd)) as IH'.
    destruct (run_ops (lru_put c k v) r) as [c2 ts]. exact IH'.
Qed.

(* ------------------------------------------------------------------ *)
(** ** Claims *)

(** C1: creation is idempotent. In every reachable state, when [long_url]
    already has a code [c], [create_short_url] with that URL, whatever the
    custom code, expiry or clock, returns [(True, c)] and changes nothing. *)
Theorem C1_create_idempotent s u c :
  reachable s -> url_to_code (db s) !! u = Some c ->
  forall fuel t_exp t_store cc ed,
    create_short_url fuel t_exp t_store s u cc ed = Some ((true, c), s).
Proof.
  intros Hr Hu fuel t1 t2 cc ed.
  destruct (reachable_inv s Hr) as [(_ & Hv & _) _].
  destruct (Hv _ _ Hu) as [Hc Hvu].
  unfold create_short_url. rewrite Hvu, Hu. simpl. by rewrite Hc.
Qed.

Lemma C1_create_idempotent_witness :
  reachable demo1 /\ url_to_code (db demo1) !! "https://example.com/a" = Some "0000001" /\
  create_short_url 5 7 7 demo1 "https://example.com/a" (Some "ZZZZZZZ") (Some 3)
    = Some ((true, "0000001"), demo1).
Proof.
  split; [exact demo1_reachable|split; [vm_compute; reflexivity|]].
  apply (C1_create_idempotent demo1 "https://example.com/a" "0000001").
  - exact demo1_reachable.
  - vm_compute. reflexivity.
Defined.

(** C5: a cache hit in [get_long_url] skips the expiry check. In every
    reachable state where [code] is cached with value [u], resolving returns
    [(True, u)] whatever the clock says, increments the visit counter and
    moves the entry to the front; and there is a reachable state in which an
    expired code still resolves successfully because it is cached. *)
Theorem C5_cache_hit_skips_expiry :
  (forall s code u now,
     reachable s -> lru_find code (nodes (cache s)) = Some u ->
     get_long_url now s code =
       Some ((true, u), mkShortener (increment_visits (db s) code)
                                    (snd (lru_get (cache s) code)))) /\
  (exists s code u now st e,
     reachable s /\ stats (db s) !! code = Some st /\ expires_at st = Some e /\
     e < now /\ exists s', get_long_url now s code = Some ((true, u), s')).
Proof.
  split.
  - intros s code u now Hr Hf.
    destruct (reachable_inv s Hr) as [Hd Hc].
    assert (Hu : truthy_str u = true).
    { apply (store_inv_url_truthy (db s) code), Hc, lru_find_In; done. }
    unfold get_long_url, lru_get. rewrite Hf. simpl. by rewrite Hu.
  - exists demo1, "0000001", "https://example.com/a", 86401,
      (mkStat 0 (Some 86400) 0), 86400.
    split; [exact demo1_reachable|].
    split; [vm_compute; reflexivity|]. split; [reflexivity|]. split; [lia|].
    eexists. vm_compute. reflexivity.
Qed.

(** C6: a custom code already bound to a URL cannot be reused. In every
    reachable state where the well-formed custom code [c] is bound, shortening
    a valid URL that has no code yet with [custom_code = c] returns
    [(False, "Custom code already in use")] and leaves the whole state
    (maps, statistics, cache, counter) unchanged. *)
Theorem C6_custom_code_in_use s c u u' fuel t_exp t_store ed :
  reachable s -> code_to_url (db s) !! c = Some u -> is_valid_code c = true ->
  is_valid_url u' = true -> url_to_code (db s) !! u' = None ->
  create_short_url fuel t_exp t_store s u' (Some c) ed
    = Some ((false, msg_code_in_use), s).
Proof.
  intros Hr Hc Hvc Hvu Hu'.
  destruct (reachable_inv s Hr) as [Hd _].
  pose proof (store_inv_url_truthy _ _ _ Hd Hc) as Hut.
  unfold create_short_url. rewrite Hvu, Hu'. simpl.
  rewrite (valid_code_truthy c Hvc), Hvc, Hc. simpl. by rewrite Hut.
Qed.

Lemma C6_custom_code_in_use_witness :
  create_short_url 100 0 0 demo1 "https://example.com/c" (Some "0000001") None
    = Some ((false, msg_code_in_use), demo1).
Proof.
  apply (C6_custom_code_in_use demo1 "0000001" "https://example.com/a").
  - exact demo1_reachable.
  - vm_compute. reflexivity.
  - vm_compute. reflexivity.
  - vm_compute. reflexivity.
  - vm_compute. reflexivity.
Defined.

(** C7: in every reachable state the code-to-URL and URL-to-code maps are
    mutual inverses: no two codes share a URL and no two URLs share a code. *)
Theorem C7_maps_mutual_inverse s :
  reachable s ->
  (forall c u, code_to_url (db s) !! c = Some u <-> url_to_code (db s) !! u = Some c) /\
  (forall c1 c2 u, code_to_url (db s) !! c1 = Some u ->
                   code_to_url (db s) !! c2 = Some u -> c1 = c2) /\
  (forall u1 u2 c, url_to_code (db s) !! u1 = Some c ->
                   url_to_code (db s) !! u2 = Some c -> u1 = u2).
Proof.
  intros Hr. destruct (reachable_inv s Hr) as [(Hi & _ & _) _].
  split; [done|split].
  - intros c1 c2 u H1 H2. apply Hi in H1, H2. congruence.
  - intros u1 u2 c H1 H2. apply Hi in H1, H2. congruence.
Qed.

Lemma C7_maps_mutual_inverse_witness :
  code_to_url (db demo2) !! "0000002" = Some "https://example.com/b" /\
  url_to_code (db demo2) !! "https://example.com/b" = Some "0000002".
Proof.
  destruct (C7_maps_mutual_inverse demo2 demo2_reachable) as [Hi _].
  assert (H : code_to_url (db demo2) !! "0000002" = Some "https://example.com/b")
    by (vm_compute; reflexivity).
  split; [exact H | apply Hi, H].
Defined.

(** C8: in every reachable state each cache entry [(k, v)] is also in the
    store, which maps [k] to the same URL [v]. *)
Theorem C8_cache_store_coherent s :
  reachable s ->
  forall k v, In (k, v) (nodes (cache s)) -> code_to_url (db s) !! k = Some v.
Proof. intros Hr. apply (reachable_inv s Hr). Qed.

Lemma C8_cache_store_coherent_witness :
  code_to_url (db demo2) !! "0000002" = Some "https://example.com/b".
Proof.
  apply (C8_cache_store_coherent demo2 demo2_reachable).
  vm_compute. left. reflexivity.
Defined.

(** C9: [LRUCache.get] on a key that is not cached returns [None] and leaves
    the cache (keys, values and order) unchanged. *)
Theorem C9_lru_get_absent (c : LRUCache) (key : string) :
  key_in key (nodes c) = false -> lru_get c key = (None, c).
Proof. apply lru_get_miss. Qed.

Lemma C9_lru_get_absent_witness :
  lru_get (mkLRU 2 [("a", "x"); ("b", "y")]) "c" = (None, mkLRU 2 [("a", "x"); ("b", "y")]).
Proof. apply C9_lru_get_absent. reflexivity. Defined.

(** C10: an empty custom code is treated as no custom code: the call is the
    same as with [custom_code = None], so it never fails with
    "Invalid custom code". *)
Theorem C10_empty_custom_code fuel t_exp t_store s u ed :
  create_short_url fuel t_exp t_store s u (Some EmptyString) ed
    = create_short_url fuel t_exp t_store s u None ed /\
  forall r s', create_short_url fuel t_exp t_store s u (Some EmptyString) ed = Some (r, s') ->
               r <> (false, msg_invalid_code).
Proof.
  assert (Heq : create_short_url fuel t_exp t_store s u (Some EmptyString) ed
                = create_short_url fuel t_exp t_store s u None ed) by reflexivity.
  split; [exact Heq|]. rewrite Heq. intros r s' H ->.
  unfold create_short_url in H.
  destruct (is_valid_url u); simpl in H; [|discriminate].
  destruct (truthy_opt_str _); [discriminate|].
  destruct (generate_code fuel (db s)) as [[code d1]|]; discriminate.
Qed.

(** C2 (as stated, refuted): "https://example.com/a" is created at time 0
    with [expiry_days = 1] (code "0000001", [created_at = 0]) and evicted from
    the size-1 cache by a second creation; at the instant
    [created_at + 1 * 86400 = 86400] a cache-miss [get_long_url] returns
    [(True, url)], not "URL has expired": the code tests [expires_at < now]. *)
Lemma C2_expiry_boundary_counterexample :
  stats (db demo2) !! "0000001" = Some (mkStat 0 (Some (0 + 1 * 86400)) 0) /\
  key_in "0000001" (nodes (cache demo2)) = false /\
  exists s', get_long_url (0 + 1 * 86400) demo2 "0000001"
               = Some ((true, "https://example.com/a"), s') /\
             s' <> demo2.
Proof.
  split; [vm_compute; reflexivity|]. split; [vm_compute; reflexivity|].
  eexists. split; [vm_compute; reflexivity|].
  vm_compute. intros H. discriminate H.
Qed.

(** C2 (amended): let [create_short_url] shorten a new URL [u] as code [c]
    with [expiry_days = d] ([d <> 0]), reading the clock [t_exp] for the
    expiry and [t_store] for [created_at]. In every state reached from there
    in which [c] is not cached, the record keeps [created_at = t_store] and
    [expires_at = t_exp + d * 86400]. When that value is not 0,
    [get_long_url] succeeds with [u] when [now <= t_exp + d * 86400] and
    fails with "URL has expired", changing nothing, when
    [now > t_exp + d * 86400]. When it is 0 (falsy, so no expiry) the code
    resolves to [u] at every clock reading. *)
Theorem C2_expiry_boundary_amended s0 u cc d fuel t_exp t_store c s1 s now :
  reachable s0 -> url_to_code (db s0) !! u = None ->
  create_short_url fuel t_exp t_store s0 u cc (Some d) = Some ((true, c), s1) ->
  d <> 0 ->
  rtc step s1 s -> key_in c (nodes (cache s)) = false ->
  (exists st, stats (db s) !! c = Some st /\ created_at st = t_store /\
              expires_at st = Some (t_exp + d * 86400)) /\
  (t_exp + d * 86400 <> 0 ->
     (now <= t_exp + d * 86400 ->
        exists s', get_long_url now s c = Some ((true, u), s')) /\
     (t_exp + d * 86400 < now ->
        get_long_url now s c = Some ((false, msg_expired), s))) /\
  (t_exp + d * 86400 = 0 ->
     exists s', get_long_url now s c = Some ((true, u), s')).
Proof.
  intros Hr0 Hu0 Hcr Hd Hrtc Hmiss.
  assert (Hr1 : reachable s1)
    by (eapply reachable_rtc; [exact Hr0|]; eapply rtc_once, step_create; exact Hcr).
  destruct (create_cases _ _ _ _ _ _ _ _ _ Hcr)
    as [[-> [Hf|Ht]]|(code & d1 & expiry & Hexp & Hv & _ & _ & _ & H1 & H2 & H3 & _ & Hres & ->)].
  - discriminate.
  - rewrite Hu0 in Ht. discriminate.
  - injection Hres as <-.
    assert (Hexp' : expiry = Some (t_exp + d * 86400)).
    { rewrite Hexp. unfold truthy_int. destruct (Z.eqb_spec d 0); [done|].
      f_equal. lia. }
    destruct (rtc_keeps_record _ _ c u (mkStat t_store expiry 0) (reachable_inv _ Hr1) Hrtc)
      as (Hc & st & Hst & Ecr & Eex); simpl; [by rewrite lookup_insert_eq..|].
    simpl in Ecr, Eex. rewrite Hexp' in Eex.
    split; [by exists st|].
    assert (Hs : reachable s) by (eapply reachable_rtc; [exact Hr1|exact Hrtc]).
    destruct (reachable_inv s Hs) as [Hd' _].
    pose proof (store_inv_url_truthy _ _ _ Hd' Hc) as Hut.
    unfold get_long_url. rewrite (lru_get_miss _ _ Hmiss). simpl.
    rewrite Hc. simpl. rewrite Hut. simpl. rewrite Hst, Eex.
    unfold truthy_int. split.
    + intros He. rewrite (proj2 (Z.eqb_neq _ _) He). simpl. split.
      * intros Hle. rewrite (proj2 (Z.ltb_ge _ _) Hle). eauto.
      * intros Hlt. rewrite (proj2 (Z.ltb_lt _ _) Hlt). by destruct s.
    + intros He. rewrite He. simpl. eauto.
Qed.

Lemma C2_expiry_boundary_amended_witness :
  exists s', get_long_url 86400 demo2 "0000001" = Some ((true, "https://example.com/a"), s').
Proof.
  refine (proj1 (proj1 (proj2 (C2_expiry_boundary_amended demo0 "https://example.com/a" None 1
            100 0 0 "0000001" demo1 demo2 86400 _ _ _ _ _ _)) _) _).
  - exists 1. apply rtc_refl.
  - vm_compute. reflexivity.
  - vm_compute. reflexivity.
  - lia.
  - eapply rtc_once.
    apply (step_create 100 0 0 demo1 "https://example.com/b" None None (true, "0000002")).
    vm_compute. reflexivity.
  - vm_compute. reflexivity.
  - lia.
  - lia.
Defined.

(** C3 (as stated, refuted): once the sequence counter reaches [62^7] the
    generated code is "10000000", eight characters long: [rjust] pads short
    encodings but never truncates long ones. *)
Lemma C3_generated_code_length_counterexample :
  generate_code 1 (set_counter db_init (62 ^ 7 - 1))
    = Some ("10000000", set_counter db_init (62 ^ 7)) /\
  create_short_url 1 0 0 (set_db (shortener_init 1000) (set_counter db_init (62 ^ 7 - 1)))
      "https://example.com/a" None None
    = Some ((true, "10000000"),
            mkShortener (db_store 0 (set_counter db_init (62 ^ 7)) "10000000"
                           "https://example.com/a" None)
                        (mkLRU 1000 [("10000000", "https://example.com/a")])) /\
  String.length "10000000" = 8%nat.
Proof. split; [|split]; vm_compute; reflexivity. Qed.

(** C3 (amended): a code produced by the generation loop is the base-62
    encoding of the new counter value, left-padded with '0' to at least 7
    characters; it consists only of characters of the 62-character alphabet;
    its length is [max 7 (length of the encoding)], so exactly 7 while the
    counter is below [62^7] and more than 7 once it reaches [62^7]. The loop ends with a counter strictly larger
    than before (every attempt uses the counter incremented by one) and no
    operation ever decreases the counter, so no sequence number is used
    twice. *)
Theorem C3_generated_code_format_amended :
  (forall fuel d code d1,
     0 <= counter d -> generate_code fuel d = Some (code, d1) ->
     counter d < counter d1 /\
     code = rjust (encode_base62 (counter d1)) 7 "0"%char /\
     str_forallb (fun ch => char_in ch charset) code = true /\
     String.length code = Nat.max 7 (String.length (encode_base62 (counter d1))) /\
     (counter d1 < 62 ^ 7 -> String.length code = 7%nat) /\
     (62 ^ 7 <= counter d1 -> (7 < String.length code)%nat)) /\
  (forall s s', step s s' -> counter (db s) <= counter (db s')).
Proof.
  split; [|exact step_counter_mono].
  intros fuel d code d1 Hnn Hg.
  destruct (generate_code_spec _ _ _ _ Hg) as (_ & _ & _ & Hlt & -> & _).
  split; [done|]. split; [reflexivity|]. unfold candidate.
  split; [apply rjust_chars, encode_base62_chars|].
  rewrite rjust_length. split; [done|]. split.
  - intros Hup. pose proof (encode_base62_length_le (counter d1)) as H. lia.
  - intros Hlo. pose proof (encode_base62_length_gt (counter d1) Hlo). lia.
Qed.

(** C4: LRU eviction. Starting from an empty cache of capacity [C >= 1],
    after any sequence of [get] and [put] calls the cached keys, most recent
    first, are the first [C] keys of the recency order of the touched keys
    (touched by [put] or by a [get] that finds its key); so when more than
    [C] distinct keys were touched exactly [C] remain. The cache never holds
    more than [C] keys, and a [put] of a new key into a full cache evicts
    exactly the least recently used entry (the last one). *)
Theorem C4_lru_recency (C : Z) (ops : list cache_op) :
  1 <= C ->
  let (c, ts) := run_ops (lru_init C) ops in
  map fst (nodes c) = take (Z.to_nat C) (recency ts) /\
  ((Z.to_nat C < length (recency ts))%nat -> length (nodes c) = Z.to_nat C) /\
  (length (nodes c) <= Z.to_nat C)%nat /\
  (forall k v, key_in k (nodes c) = false -> length (nodes c) = Z.to_nat C ->
     nodes (lru_put c k v) = (k, v) :: removelast (nodes c)).
Proof.
  intros HC. destruct (Z.to_nat C) as [|n] eqn:En; [lia|].
  assert (Hcap : capacity (lru_init C) = Z.of_nat (S n)) by (simpl; lia).
  destruct (run_ops_keys ops (lru_init C) n [] Hcap eq_refl (List.NoDup_nil _))
    as (Hcap' & HK & _).
  unfold recency. destruct (run_ops (lru_init C) ops) as [c ts]. simpl in *.
  assert (Hlen : length (nodes c) = length (take (S n) (fold_left touch ts []))).
  { by rewrite <- HK, length_map. }
  rewrite length_take in Hlen.
  split; [done|]. split; [lia|]. split; [lia|].
  intros k v Hk Hfull. unfold lru_put. rewrite Hk, Hcap'.
  cbn [length]. rewrite Hfull.
  destruct (Z.gtb_spec (Z.of_nat (S (S n))) (Z.of_nat (S n))) as [_|]; [|lia].
  cbn [nodes]. destruct (nodes c) as [|e l]; [simpl in Hfull; lia|]. reflexivity.
Qed.

Lemma C4_lru_recency_witness :
  1 <= 2 /\
  (let (c, ts) := run_ops (lru_init 2) demo_ops in
   map fst (nodes c) = take (Z.to_nat 2) (recency ts) /\
   ((Z.to_nat 2 < length (recency ts))%nat -> length (nodes c) = Z.to_nat 2) /\
   (length (nodes c) <= Z.to_nat 2)%nat /\
   (forall k v, key_in k (nodes c) = false -> length (nodes c) = Z.to_nat 2 ->
      nodes (lru_put c k v) = (k, v) :: removelast (nodes c))).
Proof. split; [lia|]. apply C4_lru_recency. lia. Defined.

(* ================================================================== *)
(** * Further properties of the code *)

(* ------------------------------------------------------------------ *)
(** ** Decoding generated codes *)

Lemma decode_aux_zeros k : decode_aux (repeat_char k "0"%char) 0 = 0.
Proof. induction k as [|k IH]; simpl; [done|]. exact IH. Qed.

Lemma decode_candidate n : 0 <= n -> decode_base62 (candidate n) = n.
Proof.
  intros Hn. unfold candidate, rjust, decode_base62.
  rewrite decode_aux_append, decode_aux_zeros. by apply decode_encode_base62.
Qed.

Lemma candidate_inj n m : 0 <= n -> 0 <= m -> candidate n = candidate m -> n = m.
Proof.
  intros Hn Hm H. rewrite <- (decode_candidate n Hn), <- (decode_candidate m Hm).
  by rewrite H.
Qed.

(* ------------------------------------------------------------------ *)
(** ** Termination of the generation loop *)

(** when the loop runs out of iterations, every code it tried was taken *)
Lemma generate_code_None_taken f d :
  generate_code f d = None ->
  forall i, 1 <= i <= Z.of_nat f ->
    truthy_opt_str (code_to_url d !! candidate (counter d + i)) = true.
Proof.
  revert d. induction f as [|f IH]; intros d H i Hi; [lia|].
  simpl in H. destruct (truthy_opt_str _) eqn:Ht; simpl in H; [|discriminate].
  destruct (Z.eq_dec i 1) as [->|Hne]; [exact Ht|].
  specialize (IH _ H (i - 1)). simpl in IH.
  replace (counter d + 1 + (i - 1)) with (counter d + i) in IH by lia.
  apply IH. lia.
Qed.

Lemma generate_code_terminates d :
  0 <= counter d -> is_Some (generate_code (S (size (code_to_url d))) d).
Proof.
  intros Hnn. set (n := size (code_to_url d)).
  destruct (generate_code (S n) d) as [r|] eqn:E; [by eexists|exfalso].
  pose proof (generate_code_None_taken _ _ E) as Htaken.
  set (L := (fun i => candidate (counter d + i)) <$> seqZ 1 (Z.of_nat (S n))).
  assert (HL : NoDup L).
  { apply NoDup_fmap_2_strong; [|apply NoDup_seqZ].
    intros x y Hx Hy Hxy. apply elem_of_seqZ in Hx, Hy.
    apply candidate_inj in Hxy; lia. }
  assert (Hsub : forall x, x ∈ L -> x ∈ (map_to_list (code_to_url d)).*1).
  { intros x Hx. apply list_elem_of_fmap in Hx as (i & -> & Hi).
    apply elem_of_seqZ in Hi.
    specialize (Htaken i ltac:(lia)).
    destruct (code_to_url d !! candidate (counter d + i)) as [u|] eqn:Hu; [|discriminate].
    apply (list_elem_of_fmap_2 fst _ (candidate (counter d + i), u)).
    by apply elem_of_map_to_list. }
  pose proof (submseteq_length _ _ (NoDup_submseteq _ _ HL Hsub)) as Hlen.
  rewrite length_fmap, length_map_to_list in Hlen.
  unfold L in Hlen. rewrite length_fmap, length_seqZ in Hlen. lia.
Qed.

(* ------------------------------------------------------------------ *)
(** ** The parts of [url.split('/')] *)

Lemma split_aux_length sep s cur :
  length (split_aux sep s cur) = S (count_char sep s).
Proof.
  revert cur. induction s as [|ch s IH]; intros cur; simpl; [done|].
  destruct (ascii_dec ch sep); simpl; rewrite IH; done.
Qed.

Lemma prefix_append p u : String.prefix p u = true -> exists r, u = String.append p r.
Proof.
  revert u. induction p as [|a p IH]; intros u H; [by exists u|].
  destruct u as [|b u]; simpl in H; [discriminate|].
  destruct (ascii_dec a b) as [<-|]; [|discriminate].
  destruct (IH u H) as [r ->]. by exists r.
Qed.

Lemma count_char_append ch a b :
  count_char ch (String.append a b) = (count_char ch a + count_char ch b)%nat.
Proof.
  induction a as [|c a IH]; [reflexivity|].
  change (((if ascii_dec c ch then 1 else 0) + count_char ch (String.append a b))%nat
          = ((if ascii_dec c ch then 1 else 0) + count_char ch a + count_char ch b)%nat).
  rewrite IH. lia.
Qed.

Lemma scheme_split_parts u :
  String.prefix "http://" u || String.prefix "https://" u = true ->
  (3 <= length (py_split "/"%char u))%nat.
Proof.
  intros H. unfold py_split. rewrite split_aux_length.
  apply orb_true_iff in H as [H|H]; apply prefix_append in H as [r ->];
    rewrite count_char_append; simpl; lia.
Qed.

(* ------------------------------------------------------------------ *)
(** ** More on [LRUCache] *)

Lemma remove_node_no_key k (l : list (string * string)) :
  ~ In k (map fst (remove_node k l)).
Proof. rewrite map_fst_remove_node, drop_key_In. tauto. Qed.

Lemma removelast_keys_sub k (l : list (string * string)) :
  ~ In k (map fst l) -> ~ In k (map fst (removelast l)).
Proof.
  intros Hn Hin. apply Hn. apply in_map_iff in Hin as ([k' v] & <- & Hin).
  apply in_map_iff. exists (k', v). split; [done|]. by apply In_removelast.
Qed.

(** after [put k v] with a positive capacity, the new node is the first one
    and [k] occurs nowhere else *)
Lemma lru_put_shape c k v :
  1 <= capacity c ->
  exists rest, nodes (lru_put c k v) = (k, v) :: rest /\ ~ In k (map fst rest).
Proof.
  intros Hc.
  set (l0 := if key_in k (nodes c) then remove_node k (nodes c) else nodes c).
  assert (Hl0 : ~ In k (map fst l0)).
  { unfold l0. destruct (key_in k (nodes c)) eqn:Hk; [apply remove_node_no_key|].
    rewrite <- key_in_In. congruence. }
  unfold lru_put. fold l0.
  destruct (Z.of_nat (length ((k, v) :: l0)) >? capacity c) eqn:Hgt; cbn [nodes].
  - destruct l0 as [|e l0'] eqn:El0.
    + simpl in Hgt. apply Z.gtb_lt in Hgt. lia.
    + exists (removelast (e :: l0')). split; [reflexivity|].
      by apply removelast_keys_sub.
  - by exists l0.
Qed.

Lemma remove_node_length_In k (l : list (string * string)) :
  In k (map fst l) -> (length (remove_node k l) < length l)%nat.
Proof.
  intros Hin. rewrite <- (length_map fst (remove_node k l)), <- (length_map fst l).
  rewrite map_fst_remove_node. by apply drop_key_length_In.
Qed.

Lemma run_ops_nonpos_capacity ops c :
  capacity c <= 0 -> nodes c = [] ->
  nodes (fst (run_ops c ops)) = [] /\ capacity (fst (run_ops c ops)) = capacity c.
Proof.
  revert c. induction ops as [|[k|k v] r IH]; intros c Hc Hn; [done| |].
  - cbn [run_ops]. unfold lru_get. rewrite Hn. simpl.
    pose proof (IH c Hc Hn) as IH'. destruct (run_ops c r) as [c2 ts]. exact IH'.
  - cbn [run_ops].
    assert (Hp : nodes (lru_put c k v) = [] /\ capacity (lru_put c k v) = capacity c).
    { unfold lru_put. rewrite Hn. simpl.
      change (Z.of_nat 1) with 1. destruct (Z.gtb_spec 1 (capacity c)); [done|lia]. }
    destruct Hp as [Hp1 Hp2].
    pose proof (IH (lru_put c k v) ltac:(lia) Hp1) as IH'.
    destruct (run_ops (lru_put c k v) r) as [c2 ts]. simpl in *. destruct IH' as [A B]. split; [done|congruence].
Qed.

(* ------------------------------------------------------------------ *)
(** ** Extra properties *)

(** X1: the padded base-62 code of a non-negative counter value reads back,
    digit by digit in the order of [charset], as that value; so two distinct
    non-negative counter values never give the same code. *)
Theorem X1_candidate_decode n :
  0 <= n ->
  decode_base62 (candidate n) = n /\
  (forall m, 0 <= m -> candidate m = candidate n -> m = n).
Proof.
  intros Hn. split; [by apply decode_candidate|].
  intros m Hm H. by apply candidate_inj.
Qed.

Lemma X1_candidate_decode_witness :
  decode_base62 "10000000" = 62 ^ 7 /\
  (forall m, 0 <= m -> candidate m = candidate (62 ^ 7) -> m = 62 ^ 7).
Proof.
  change "10000000" with (candidate (62 ^ 7)).
  apply X1_candidate_decode. lia.
Defined.

(** X2: [_generate_code] always ends: from a non-negative counter, at most
    one more iteration than there are stored codes is needed; the returned
    code is not bound in the store and the counter has grown. *)
Theorem X2_generate_code_terminates d :
  0 <= counter d ->
  exists code d1,
    generate_code (S (size (code_to_url d))) d = Some (code, d1) /\
    truthy_opt_str (code_to_url d !! code) = false /\ counter d < counter d1.
Proof.
  intros Hnn. destruct (generate_code_terminates d Hnn) as [[code d1] Hg].
  destruct (generate_code_spec _ _ _ _ Hg) as (_ & _ & _ & Hlt & _ & Hfree).
  by exists code, d1.
Qed.

Lemma X2_generate_code_terminates_witness :
  exists code d1,
    generate_code (S (size (code_to_url (db demo2)))) (db demo2) = Some (code, d1) /\
    truthy_opt_str (code_to_url (db demo2) !! code) = false /\
    counter (db demo2) < counter d1.
Proof. apply X2_generate_code_terminates. vm_compute. discriminate. Defined.

(** X3: every code generated from a counter value in [1, 62^7) also passes
    the custom-code check [_is_valid_code]. *)
Theorem X3_generated_code_is_valid n :
  0 < n < 62 ^ 7 -> is_valid_code (candidate n) = true.
Proof.
  intros Hn. unfold is_valid_code.
  assert (Hlen : String.length (candidate n) = 7%nat).
  { unfold candidate. rewrite rjust_length.
    pose proof (encode_base62_length_le n Hn). lia. }
  rewrite Hlen. simpl. unfold candidate.
  apply rjust_chars, encode_base62_chars.
Qed.

Lemma X3_generated_code_is_valid_witness : is_valid_code (candidate 3843) = true.
Proof. apply X3_generated_code_is_valid. lia. Defined.

(** X4: a string that starts with "http://" or "https://" always splits on
    '/' into at least three parts, so the [len(parts) < 3] rejection of
    [_is_valid_url] never fires: such a string is valid exactly when it has
    at most 2048 characters and its third part contains a '.'. *)
Theorem X4_url_parts_check_never_fires u :
  String.prefix "http://" u || String.prefix "https://" u = true ->
  (3 <= length (py_split "/"%char u))%nat /\
  is_valid_url u =
    negb (Nat.ltb 2048 (String.length u)) &&
    match nth_error (py_split "/"%char u) 2 with
    | Some domain => char_in "."%char domain
    | None => false
    end.
Proof.
  intros H. pose proof (scheme_split_parts u H) as H3. split; [exact H3|].
  unfold is_valid_url. rewrite H. simpl.
  destruct (Nat.ltb_spec (length (py_split "/"%char u)) 3); [lia|].
  by destruct (Nat.ltb 2048 (String.length u)).
Qed.

Lemma X4_url_parts_check_never_fires_witness :
  (3 <= length (py_split "/"%char "https://localhost"))%nat /\
  is_valid_url "https://localhost" =
    negb (Nat.ltb 2048 (String.length "https://localhost")) &&
    match nth_error (py_split "/"%char "https://localhost") 2 with
    | Some domain => char_in "."%char domain
    | None => false
    end.
Proof. apply X4_url_parts_check_never_fires. reflexivity. Defined.

(** X5: with a positive capacity, [get] right after [put k v] returns [v] and
    leaves the cache as [put] made it. *)
Theorem X5_lru_put_then_get c k v :
  1 <= capacity c -> lru_get (lru_put c k v) k = (Some v, lru_put c k v).
Proof.
  intros Hc. destruct (lru_put_shape c k v Hc) as (rest & Hn & Hk).
  assert (Hr : remove_node k ((k, v) :: rest) = rest).
  { unfold remove_node. simpl. rewrite String.eqb_refl. simpl.
    apply remove_node_notin. destruct (key_in k rest) eqn:E; [|done].
    apply key_in_In in E. contradiction. }
  unfold lru_get. rewrite Hn. cbn [lru_find]. rewrite String.eqb_refl, Hr, <- Hn.
  by destruct (lru_put c k v).
Qed.

Lemma X5_lru_put_then_get_witness :
  lru_get (lru_put (mkLRU 1 [("a", "x")]) "b" "y") "b"
    = (Some "y", lru_put (mkLRU 1 [("a", "x")]) "b" "y").
Proof. apply X5_lru_put_then_get. simpl. lia. Defined.

(** X6: [put] on a key already present, in a cache holding no more nodes
    than its capacity, evicts nothing: the key moves to the front with its
    new value and every other node stays in order. *)
Theorem X6_lru_put_existing_no_eviction c k v :
  key_in k (nodes c) = true ->
  Z.of_nat (length (nodes c)) <= capacity c ->
  nodes (lru_put c k v) = (k, v) :: remove_node k (nodes c).
Proof.
  intros Hin Hlen. unfold lru_put. rewrite Hin.
  apply key_in_In in Hin.
  pose proof (remove_node_length_In k (nodes c) Hin) as Hlt.
  destruct (Z.gtb_spec (Z.of_nat (length ((k, v) :: remove_node k (nodes c)))) (capacity c))
    as [Hgt|_]; [|done].
  simpl in Hgt. lia.
Qed.

Lemma X6_lru_put_existing_no_eviction_witness :
  nodes (lru_put (mkLRU 2 [("a", "x"); ("b", "y")]) "b" "z")
    = ("b", "z") :: remove_node "b" [("a", "x"); ("b", "y")].
Proof. apply X6_lru_put_existing_no_eviction; [reflexivity | simpl; lia]. Defined.

(** X7: a cache created with a capacity of zero or less stays empty under
    any sequence of [get] and [put]: every later [get] misses. *)
Theorem X7_lru_nonpos_capacity_empty C ops k :
  C <= 0 ->
  nodes (fst (run_ops (lru_init C) ops)) = [] /\
  fst (lru_get (fst (run_ops (lru_init C) ops)) k) = None.
Proof.
  intros HC. destruct (run_ops_nonpos_capacity ops (lru_init C) HC eq_refl) as [Hn _].
  split; [exact Hn|]. unfold lru_get. by rewrite Hn.
Qed.

Lemma X7_lru_nonpos_capacity_empty_witness :
  nodes (fst (run_ops (lru_init 0) demo_ops)) = [] /\
  fst (lru_get (fst (run_ops (lru_init 0) demo_ops)) "a") = None.
Proof. apply X7_lru_nonpos_capacity_empty. lia. Defined.

(* ------------------------------------------------------------------ *)
(** ** Helper facts on [get_long_url] *)

Lemma lru_get_None_same c k c1 : lru_get c k = (None, c1) -> c1 = c.
Proof. unfold lru_get. destruct (lru_find k (nodes c)); [discriminate|congruence]. Qed.

Lemma lru_get_Some_find c k v c1 : lru_get c k = (Some v, c1) -> lru_find k (nodes c) = Some v.
Proof. unfold lru_get. destruct (lru_find k (nodes c)); [congruence|discriminate]. Qed.

Lemma increment_visits_at d c st :
  stats d !! c = Some st ->
  increment_visits d c =
    mkDB (url_to_code d) (code_to_url d)
         (<[c := mkStat (created_at st) (expires_at st) (visit_count st + 1)]> (stats d))
         (counter d).
Proof. intros H. unfold increment_visits. by rewrite H. Qed.

Lemma shortener_eta s : mkShortener (db s) (cache s) = s.
Proof. by destruct s. Qed.

(** In a state satisfying the invariant, a stored code whose record has no
    expiry resolves to its URL. *)
Lemma resolve_no_expiry now s c u st :
  inv s -> code_to_url (db s) !! c = Some u -> stats (db s) !! c = Some st ->
  expires_at st = None ->
  exists s', get_long_url now s c = Some ((true, u), s').
Proof.
  intros [Hd Hc] Hu Hst He. unfold get_long_url.
  destruct (lru_get (cache s) c) as [[v|] c1] eqn:Hg.
  - apply lru_get_Some_find, lru_find_In, Hc in Hg. rewrite Hu in Hg.
    injection Hg as <-. simpl. rewrite (store_inv_url_truthy _ _ _ Hd Hu). eauto.
  - simpl. rewrite Hu. simpl. rewrite (store_inv_url_truthy _ _ _ Hd Hu). simpl.
    rewrite Hst, He. eauto.
Qed.

(** Visit counts of stored codes never decrease. *)
Lemma step_visits_mono s s' c u st :
  inv s -> step s s' ->
  code_to_url (db s) !! c = Some u -> stats (db s) !! c = Some st ->
  exists st', stats (db s') !! c = Some st' /\ visit_count st <= visit_count st'.
Proof.
  intros [Hd _] Hstep Hc Hs.
  assert (Hinc : forall code, exists st', stats (increment_visits (db s) code) !! c = Some st' /\
              visit_count st <= visit_count st').
  { intros code. unfold increment_visits.
    destruct (stats (db s) !! code) as [st0|] eqn:Hs0; simpl; [|exists st; split; [done|lia]].
    rewrite lookup_insert.
    case_decide as Heq; [subst code|exists st; split; [done|lia]].
    rewrite Hs in Hs0. injection Hs0 as <-. eexists; split; [reflexivity|simpl; lia]. }
  destruct Hstep as [fuel t1 t2 ? u' cc ed r ? H|now ? code r ? H].
  - destruct (create_cases _ _ _ _ _ _ _ _ _ H)
      as [[-> _]|(code & d1 & expiry & _ & _ & _ & _ & Hfc & H1 & H2 & H3 & _ & _ & ->)];
      [exists st; split; [done|lia]|].
    assert (Hne : code <> c).
    { intros ->. rewrite Hc in Hfc. simpl in Hfc.
      rewrite (store_inv_url_truthy _ _ _ Hd Hc) in Hfc. discriminate. }
    simpl. rewrite H3, lookup_insert_ne by done. exists st; split; [done|lia].
  - revert H. unfold get_long_url.
    destruct (lru_get (cache s) code) as [cached c1].
    destruct (truthy_opt_str cached); [intros [= _ <-]; apply Hinc|].
    destruct (truthy_opt_str (code_to_url (db s) !! code)); simpl;
      [|intros [= _ <-]; exists st; split; [done|lia]].
    destruct (stats (db s) !! code); [|done].
    case_match; intros [= _ <-]; [exists st; split; [done|lia]|apply Hinc].
Qed.

Lemma rtc_visits_mono s s' c u st :
  inv s -> rtc step s s' ->
  code_to_url (db s) !! c = Some u -> stats (db s) !! c = Some st ->
  exists st', stats (db s') !! c = Some st' /\ visit_count st <= visit_count st'.
Proof.
  intros Hi Hr. revert st Hi. induction Hr as [s|s s1 s' Hs Hr IH]; intros st Hi Hc Hst.
  - exists st; split; [done|lia].
  - destruct (step_visits_mono _ _ _ _ _ Hi Hs Hc Hst) as (st1 & Hst1 & L1).
    destruct (step_keeps_record _ _ _ _ _ Hi Hs Hc Hst) as (Hc1 & _).
    destruct (IH st1 (inv_step _ _ Hs Hi) Hc1 Hst1) as (st' & Hst' & L2).
    exists st'. split; [done|lia].
Qed.

(** X8: when [create_short_url] reports failure, nothing changes (store,
    counter and cache), and the message is one of its three error messages. *)
Theorem X8_create_failure_unchanged fuel t_exp t_store s u cc ed m s' :
  create_short_url fuel t_exp t_store s u cc ed = Some ((false, m), s') ->
  s' = s /\ (m = msg_invalid_url \/ m = msg_invalid_code \/ m = msg_code_in_use).
Proof.
  unfold create_short_url.
  destruct (is_valid_url u); simpl; [|intros [= <- <-]; auto].
  destruct (truthy_opt_str (url_to_code (db s) !! u)); [discriminate|].
  destruct cc as [cc|]; [|destruct (generate_code fuel (db s)) as [[? ?]|]; discriminate].
  destruct (truthy_str cc); [|destruct (generate_code fuel (db s)) as [[? ?]|]; discriminate].
  destruct (is_valid_code cc); simpl; [|intros [= <- <-]; auto].
  destruct (truthy_opt_str (code_to_url (db s) !! cc)); [intros [= <- <-]; auto|].
  discriminate.
Qed.

Lemma X8_create_failure_unchanged_witness :
  run_create 0 demo1 "https://example.com/c" (Some "0000001") None = demo1 /\
  (msg_code_in_use = msg_invalid_url \/ msg_code_in_use = msg_invalid_code \/
   msg_code_in_use = msg_code_in_use).
Proof.
  apply (X8_create_failure_unchanged 100 0 0 demo1 "https://example.com/c" (Some "0000001") None).
  vm_compute. reflexivity.
Defined.

(** X9: a successful [create_short_url] for a URL not yet stored adds the
    pair in both directions, a record created at the store's clock reading
    with no visits and the computed expiry, and puts the pair in the cache.
    A non-empty custom code is the code returned and leaves the counter
    alone; otherwise the code is the padded encoding of the new counter,
    which has grown. *)
Theorem X9_create_fresh_success fuel t_exp t_store s u cc ed c s' :
  url_to_code (db s) !! u = None ->
  create_short_url fuel t_exp t_store s u cc ed = Some ((true, c), s') ->
  url_to_code (db s') = <[u := c]> (url_to_code (db s)) /\
  code_to_url (db s') = <[c := u]> (code_to_url (db s)) /\
  stats (db s') = <[c := mkStat t_store
                          (match ed with
                           | Some days =>
                               if truthy_int days then Some (t_exp + days * 24 * 60 * 60)
                               else None
                           | None => None
                           end) 0]> (stats (db s)) /\
  cache s' = lru_put (cache s) c u /\
  (forall x, cc = Some x -> x <> EmptyString -> c = x /\ counter (db s') = counter (db s)) /\
  (cc = None \/ cc = Some EmptyString ->
     c = candidate (counter (db s')) /\ counter (db s) < counter (db s')).
Proof.
  intros Hu. unfold create_short_url. rewrite Hu. simpl.
  destruct (is_valid_url u); simpl; [|discriminate].
  destruct cc as [x|].
  - destruct (truthy_str x) eqn:Hx.
    + destruct (is_valid_code x); simpl; [|discriminate].
      destruct (truthy_opt_str (code_to_url (db s) !! x)); [discriminate|].
      intros [= <- <-]. simpl.
      do 4 (split; [done|]). split; [intros y [= <-] _; done|].
      intros [H|H]; [discriminate|]. injection H as ->. discriminate.
    + destruct (generate_code fuel (db s)) as [[code d1]|] eqn:Hg; [|discriminate].
      destruct (generate_code_spec _ _ _ _ Hg) as (H1 & H2 & H3 & H4 & H5 & _).
      intros [= <- <-]. simpl. rewrite H1, H2, H3.
      do 4 (split; [done|]). split.
      * intros y [= <-] Hne. destruct x; [done|discriminate].
      * intros _. split; [exact H5|exact H4].
  - destruct (generate_code fuel (db s)) as [[code d1]|] eqn:Hg; [|discriminate].
    destruct (generate_code_spec _ _ _ _ Hg) as (H1 & H2 & H3 & H4 & H5 & _).
    intros [= <- <-]. simpl. rewrite H1, H2, H3.
    do 4 (split; [done|]). split; [intros y [=]|].
    intros _. split; [exact H5|exact H4].
Qed.

Lemma X9_create_fresh_success_witness :
  let s' := run_create 0 demo1 "https://example.com/c" None (Some 2) in
  url_to_code (db s') = <["https://example.com/c" := "0000002"]> (url_to_code (db demo1)) /\
  code_to_url (db s') = <["0000002" := "https://example.com/c"]> (code_to_url (db demo1)) /\
  stats (db s') = <["0000002" := mkStat 0
                          (match Some 2 with
                           | Some days =>
                               if truthy_int days then Some (0 + days * 24 * 60 * 60)
                               else None
                           | None => None
                           end) 0]> (stats (db demo1)) /\
  cache s' = lru_put (cache demo1) "0000002" "https://example.com/c" /\
  (forall x, (None : option string) = Some x -> x <> EmptyString ->
     "0000002" = x /\ counter (db s') = counter (db demo1)) /\
  ((None : option string) = None \/ (None : option string) = Some EmptyString ->
     "0000002" = candidate (counter (db s')) /\ counter (db demo1) < counter (db s')).
Proof.
  apply (X9_create_fresh_success 100 0 0 demo1 "https://example.com/c" None (Some 2));
    vm_compute; reflexivity.
Defined.

(** X10: with a cache of capacity at least one, a code just created for a
    new URL resolves to that URL at any time, whatever its expiry, and the
    visit count of its record becomes 1. *)
Theorem X10_create_then_resolve fuel t_exp t_store s u cc ed c s' now :
  url_to_code (db s) !! u = None -> 1 <= capacity (cache s) ->
  create_short_url fuel t_exp t_store s u cc ed = Some ((true, c), s') ->
  exists s'', get_long_url now s' c = Some ((true, u), s'') /\
              option_map visit_count (get_url_stats s'' c) = Some 1.
Proof.
  intros Hu Hcap H.
  destruct (create_cases _ _ _ _ _ _ _ _ _ H)
    as [[_ [Hf|Ht]]|(code & d1 & expiry & _ & Hv & _ & _ & _ & _ & _ & _ & _ & Hr & ->)].
  - discriminate.
  - by rewrite Hu in Ht.
  - injection Hr as <-.
    destruct (lru_put_shape (cache s) c u Hcap) as (rest & Hn & _).
    unfold get_long_url. simpl. unfold lru_get. rewrite Hn. cbn [lru_find].
    rewrite String.eqb_refl. simpl. rewrite (valid_url_truthy _ Hv). simpl.
    eexists. split; [reflexivity|].
    unfold get_url_stats. simpl. unfold increment_visits. simpl.
    rewrite lookup_insert_eq. simpl. rewrite lookup_insert_eq. done.
Qed.

Lemma X10_create_then_resolve_witness :
  exists s'', get_long_url 1000000000 demo1 "0000001" = Some ((true, "https://example.com/a"), s'') /\
              option_map visit_count (get_url_stats s'' "0000001") = Some 1.
Proof.
  apply (X10_create_then_resolve 100 0 0 demo0 "https://example.com/a" None (Some 1));
    vm_compute; first [reflexivity | discriminate].
Defined.

(** X11: in a reachable state, resolving a code either succeeds with the URL
    stored for it, the only change to the store being one more visit on its
    record, or fails with "URL not found" or "URL has expired" and changes
    nothing at all, not even the cache order. *)
Theorem X11_resolve_outcome now s c b m s' :
  reachable s -> get_long_url now s c = Some ((b, m), s') ->
  (b = true ->
     code_to_url (db s) !! c = Some m /\
     exists st, stats (db s) !! c = Some st /\
       db s' = mkDB (url_to_code (db s)) (code_to_url (db s))
                 (<[c := mkStat (created_at st) (expires_at st) (visit_count st + 1)]>
                    (stats (db s)))
                 (counter (db s))) /\
  (b = false -> s' = s /\ (m = msg_not_found \/ m = msg_expired)).
Proof.
  intros Hr. destruct (reachable_inv s Hr) as [Hd Hc].
  pose proof Hd as (_ & _ & Hs). unfold get_long_url.
  destruct (lru_get (cache s) c) as [[v|] c1] eqn:Hg.
  - pose proof (lru_get_Some_find _ _ _ _ Hg) as Hf.
    apply lru_find_In, Hc in Hf.
    simpl. rewrite (store_inv_url_truthy _ _ _ Hd Hf).
    destruct (proj1 (Hs c) (mk_is_Some _ _ Hf)) as [st Hst].
    intros [= <- <- <-]. split; [|discriminate]. intros _. split; [done|].
    exists st. split; [done|]. simpl. by apply increment_visits_at.
  - apply lru_get_None_same in Hg as ->. simpl.
    destruct (code_to_url (db s) !! c) as [u|] eqn:Hu; simpl.
    + rewrite (store_inv_url_truthy _ _ _ Hd Hu). simpl.
      destruct (stats (db s) !! c) as [st|] eqn:Hst; [|done].
      case_match.
      * intros [= <- <- <-]. split; [discriminate|]. intros _. rewrite shortener_eta. auto.
      * intros [= <- <- <-]. split; [|discriminate]. intros _. split; [done|].
        exists st. split; [done|]. simpl. by apply increment_visits_at.
    + intros [= <- <- <-]. split; [discriminate|]. intros _. rewrite shortener_eta. auto.
Qed.

Lemma X11_resolve_outcome_witness :
  (true = true ->
     code_to_url (db demo2) !! "0000002" = Some "https://example.com/b" /\
     exists st, stats (db demo2) !! "0000002" = Some st /\
       db (run_resolve 0 demo2 "0000002") =
         mkDB (url_to_code (db demo2)) (code_to_url (db demo2))
              (<["0000002" := mkStat (created_at st) (expires_at st) (visit_count st + 1)]>
                 (stats (db demo2)))
              (counter (db demo2))) /\
  (true = false -> run_resolve 0 demo2 "0000002" = demo2 /\
     ("https://example.com/b" = msg_not_found \/ "https://example.com/b" = msg_expired)).
Proof.
  apply (X11_resolve_outcome 0 demo2 "0000002" true "https://example.com/b");
    [exact demo2_reachable | vm_compute; reflexivity].
Defined.

(** X12: in a reachable state [get_long_url] never reaches the [TypeError]
    on missing statistics: every code bound in the store has a record. *)
Theorem X12_resolve_never_raises now s c :
  reachable s -> is_Some (get_long_url now s c).
Proof.
  intros Hr. destruct (reachable_inv s Hr) as [(_ & _ & Hs) _]. unfold get_long_url.
  destruct (lru_get (cache s) c) as [cached c1].
  destruct (truthy_opt_str cached); [eauto|].
  destruct (code_to_url (db s) !! c) as [u|] eqn:Hu; simpl; [|eauto].
  destruct (truthy_str u); simpl; [|eauto].
  destruct (proj1 (Hs c) (mk_is_Some _ _ Hu)) as [st ->].
  case_match; eauto.
Qed.

Lemma X12_resolve_never_raises_witness : is_Some (get_long_url 100000 demo2 "0000001").
Proof. apply X12_resolve_never_raises. exact demo2_reachable. Defined.

(** X13: in a reachable state, a code with no stored URL is answered with
    "URL not found" and the state is left exactly as it was. *)
Theorem X13_resolve_unknown_code now s c :
  reachable s -> code_to_url (db s) !! c = None ->
  get_long_url now s c = Some ((false, msg_not_found), s).
Proof.
  intros Hr Hu. destruct (reachable_inv s Hr) as [_ Hc].
  assert (Hk : key_in c (nodes (cache s)) = false).
  { destruct (key_in c (nodes (cache s))) eqn:E; [|done].
    apply key_in_In, in_map_iff in E as [[k v] [Hk Hin]]. simpl in Hk. subst k.
    apply Hc in Hin. congruence. }
  unfold get_long_url. rewrite (lru_get_miss _ _ Hk). simpl. rewrite Hu. simpl.
  by rewrite shortener_eta.
Qed.

Lemma X13_resolve_unknown_code_witness :
  get_long_url 0 demo2 "abc" = Some ((false, msg_not_found), demo2).
Proof. apply X13_resolve_unknown_code; [exact demo2_reachable | reflexivity]. Defined.

(** X14: records are permanent: once a code is bound to a URL in a reachable
    state, after any further operations the code is still bound to that URL,
    the URL still maps back to the code, and [get_url_stats] still returns a
    record with the same creation time and expiry and a visit count no
    smaller than before. *)
Theorem X14_records_permanent s s' c u :
  reachable s -> rtc step s s' -> code_to_url (db s) !! c = Some u ->
  code_to_url (db s') !! c = Some u /\ url_to_code (db s') !! u = Some c /\
  exists st st', get_url_stats s c = Some st /\ get_url_stats s' c = Some st' /\
    created_at st' = created_at st /\ expires_at st' = expires_at st /\
    visit_count st <= visit_count st'.
Proof.
  intros Hr Hrtc Hu. pose proof (reachable_inv s Hr) as Hinv.
  pose proof (reachable_inv s' (reachable_rtc s s' Hr Hrtc)) as [[Hi' _] _].
  pose proof Hinv as [[_ [_ Hs]] _].
  destruct (proj1 (Hs c) (mk_is_Some _ _ Hu)) as [st Hst].
  destruct (rtc_keeps_record _ _ _ _ _ Hinv Hrtc Hu Hst) as (Hu' & st' & Hst' & E1 & E2).
  destruct (rtc_visits_mono _ _ _ _ _ Hinv Hrtc Hu Hst) as (st'' & Hst'' & L).
  rewrite Hst' in Hst''. injection Hst'' as <-.
  split; [done|]. split; [by apply Hi'|].
  exists st, st'. unfold get_url_stats. auto.
Qed.

Lemma X14_records_permanent_demo_rtc : rtc step demo1 demo2.
Proof.
  eapply rtc_l; [|apply rtc_refl].
  apply (step_create 100 0 0 demo1 "https://example.com/b" None None (true, "0000002")).
  vm_compute. reflexivity.
Qed.

Lemma X14_records_permanent_witness :
  code_to_url (db demo2) !! "0000001" = Some "https://example.com/a" /\
  url_to_code (db demo2) !! "https://example.com/a" = Some "0000001" /\
  exists st st', get_url_stats demo1 "0000001" = Some st /\
    get_url_stats demo2 "0000001" = Some st' /\
    created_at st' = created_at st /\ expires_at st' = expires_at st /\
    visit_count st <= visit_count st'.
Proof.
  apply X14_records_permanent;
    [exact demo1_reachable | exact X14_records_permanent_demo_rtc | reflexivity].
Defined.

(** X15: a code created for a new URL with no expiry, or with
    [expiry_days = 0], never expires: after any further operations it
    resolves to its URL at every clock reading. *)
Theorem X15_no_expiry_resolves fuel t_exp t_store s0 u cc ed c s1 s now :
  reachable s0 -> url_to_code (db s0) !! u = None ->
  create_short_url fuel t_exp t_store s0 u cc ed = Some ((true, c), s1) ->
  ed = None \/ ed = Some 0 -> rtc step s1 s ->
  exists s', get_long_url now s c = Some ((true, u), s').
Proof.
  intros Hr0 Hu0 Hcr Hed Hrtc.
  assert (Hr1 : reachable s1)
    by (eapply reachable_rtc; [exact Hr0|]; eapply rtc_once, step_create; exact Hcr).
  destruct (create_cases _ _ _ _ _ _ _ _ _ Hcr)
    as [[_ [Hf|Ht]]|(code & d1 & expiry & Hexp & _ & _ & _ & _ & _ & _ & _ & _ & Hres & ->)].
  - discriminate.
  - by rewrite Hu0 in Ht.
  - injection Hres as <-.
    assert (Hnone : expiry = None) by (destruct Hed as [->| ->]; exact Hexp).
    assert (Hc1 : code_to_url (db (mkShortener (db_store t_store d1 c u expiry)
                                    (lru_put (cache s0) c u))) !! c = Some u)
      by (simpl; apply lookup_insert_eq).
    assert (Hs1 : stats (db (mkShortener (db_store t_store d1 c u expiry)
                                  (lru_put (cache s0) c u))) !! c = Some (mkStat t_store None 0))
      by (simpl; rewrite Hnone; apply lookup_insert_eq).
    destruct (rtc_keeps_record _ _ _ _ _ (reachable_inv _ Hr1) Hrtc Hc1 Hs1)
      as (Hc & st & Hst & _ & He).
    apply (resolve_no_expiry now s c u st); [|done|done|done].
    apply reachable_inv. by eapply reachable_rtc.
Qed.

Lemma X15_no_expiry_resolves_witness :
  exists s', get_long_url 1000000000 demo2 "0000002" = Some ((true, "https://example.com/b"), s').
Proof.
  apply (X15_no_expiry_resolves 100 0 0 demo1 "https://example.com/b" None None "0000002" demo2);
    [exact demo1_reachable | reflexivity | vm_compute; reflexivity | by left | apply rtc_refl].
Defined.

Lemma rtc_counter_mono s s' : rtc step s s' -> counter (db s) <= counter (db s').
Proof. induction 1 as [|s s1 s' Hs _ IH]; [lia|]. pose proof (step_counter_mono _ _ Hs). lia. Qed.

(** X16: in a reachable state the counter is never negative, so
    [_encode_base62] is only called on positive numbers, and
    [create_short_url] always finishes: its generation loop needs at most one
    iteration more than there are stored codes. *)
Theorem X16_create_always_finishes t_exp t_store s u cc ed :
  reachable s ->
  0 <= counter (db s) /\
  is_Some (create_short_url (S (size (code_to_url (db s)))) t_exp t_store s u cc ed).
Proof.
  intros [n Hr]. pose proof (rtc_counter_mono _ _ Hr) as Hc. simpl in Hc.
  split; [lia|].
  destruct (generate_code_terminates (db s) ltac:(lia)) as [[code d1] Hg].
  unfold create_short_url.
  destruct (is_valid_url u); cbn [negb]; [|eauto].
  destruct (truthy_opt_str (url_to_code (db s) !! u)); [eauto|].
  destruct cc as [x|]; [|rewrite Hg; eauto].
  destruct (truthy_str x); [|rewrite Hg; eauto].
  destruct (is_valid_code x); cbn [negb]; [|eauto].
  destruct (truthy_opt_str (code_to_url (db s) !! x)); eauto.
Qed.

Lemma X16_create_always_finishes_witness :
  0 <= counter (db demo2) /\
  is_Some (create_short_url (S (size (code_to_url (db demo2)))) 0 0 demo2
             "https://example.com/c" None None).
Proof. apply X16_create_always_finishes. exact demo2_reachable. Defined.
